(** * PyHarmonyKG: the dependency resolver of [src/flash/downstream/tasks.py]

    A shallow embedding of the resolution engine ([sort_versions],
    [normalize_name], [parse_requirements], [resolve_plan] with its inner
    [dfs], and the three task entry points) together with the properties
    that the design document states about it.

    Python strings are modelled as [string] (UTF-8 bytes, whose bytewise
    lexicographic order is Python's code-point order), the plan dictionary
    as a [gmap], insertion-ordered dictionaries whose iteration order
    matters as association lists, the [visited] set as a [gset], raised
    exceptions as an explicit outcome.  The [packaging] library and the
    Neo4j client are external collaborators: they appear as interfaces. *)

From Stdlib Require Import Ascii String List NArith Bool Sorting.Sorted Sorting.Permutation.
From stdpp Require Import base option gmap strings list fin_maps.

Local Open Scope string_scope.
Local Open Scope list_scope.

(** ** Python string primitives used by the resolver *)

Module PyStr.

(** [str.isspace] on the ASCII range: TAB..CR, FS..US and the blank. *)
Definition is_space (c : ascii) : bool :=
  let n := N_of_ascii c in
  ((9 <=? n) && (n <=? 13) || (28 <=? n) && (n <=? 32))%N.

Fixpoint lstrip (s : string) : string :=
  match s with
  | EmptyString => EmptyString
  | String c s' => if is_space c then lstrip s' else s
  end.

Fixpoint rstrip (s : string) : string :=
  match s with
  | EmptyString => EmptyString
  | String c s' =>
      match rstrip s' with
      | EmptyString => if is_space c then EmptyString else String c EmptyString
      | r => String c r
      end
  end.

(** [s.strip()] *)
Definition strip (s : string) : string := rstrip (lstrip s).

Definition lower_char (c : ascii) : ascii :=
  let n := N_of_ascii c in
  if ((65 <=? n) && (n <=? 90))%N then ascii_of_N (n + 32) else c.

Fixpoint map_chars (f : ascii -> ascii) (s : string) : string :=
  match s with
  | EmptyString => EmptyString
  | String c s' => String (f c) (map_chars f s')
  end.

(** [s.lower()] *)
Definition lower (s : string) : string := map_chars lower_char s.

(** [s.replace(a, b)] for one-character [a] and [b]. *)
Definition replace_char (a b : ascii) (s : string) : string :=
  map_chars (fun c => if Ascii.eqb c a then b else c) s.


Fixpoint is_prefix (p s : string) : bool :=
  match p, s with
  | EmptyString, _ => true
  | String a p', String b s' => Ascii.eqb a b && is_prefix p' s'
  | String _ _, EmptyString => false
  end.

(** [p in s] *)
Fixpoint contains (p s : string) : bool :=
  is_prefix p s ||
  match s with
  | EmptyString => false
  | String _ s' => contains p s'
  end.

(** [s.startswith(p)] *)
Definition startswith (s p : string) : bool := is_prefix p s.

(** Python truthiness of a string. *)
Definition truthy (s : string) : bool :=
  match s with EmptyString => false | _ => true end.

(** [a < b] on strings. *)
Definition lt (a b : string) : Prop := String.compare a b = Lt.

End PyStr.

(** ** Package names *)

(** [normalize_name] of [downstream/tasks.py]:
    [name.strip().lower().replace("_", "-")]. *)
Definition normalize_name (name : string) : string :=
  PyStr.replace_char "_" "-" (PyStr.lower (PyStr.strip name)).







(** ** Insertion-ordered dictionaries

    A Python [dict] whose iteration order is observed: the items in
    insertion order, every key once. *)

Module OrderedDict.

Definition t (V : Type) : Type := list (string * V).

Fixpoint get {V} (d : t V) (k : string) : option V :=
  match d with
  | [] => None
  | (k', v) :: d' => if String.eqb k' k then Some v else get d' k
  end.

Definition mem {V} (d : t V) (k : string) : bool :=
  match get d k with Some _ => true | None => false end.

(** [d[k] = v]: an existing key keeps its position. *)
Fixpoint set {V} (d : t V) (k : string) (v : V) : t V :=
  match d with
  | [] => [(k, v)]
  | (k', v') :: d' =>
      if String.eqb k' k then (k', v) :: d' else (k', v') :: set d' k v
  end.

(** [d.setdefault(k, v)] *)
Definition setdefault {V} (d : t V) (k : string) (v : V) : t V :=
  if mem d k then d else d ++ [(k, v)].

End OrderedDict.

(** ** Outcomes: a returned value, a raised exception, or an exhausted
    recursion budget *)

Inductive exn : Set :=
| InvalidVersion
| InvalidSpecifier
| InvalidRequirement
| TypeError.

Inductive outcome (A : Type) : Type :=
| Ret (a : A)
| Raise (e : exn)
| OutOfFuel.
Arguments Ret {A} a.
Arguments Raise {A} e.
Arguments OutOfFuel {A}.

Definition bind {A B} (m : outcome A) (k : A -> outcome B) : outcome B :=
  match m with
  | Ret a => k a
  | Raise e => Raise e
  | OutOfFuel => OutOfFuel
  end.

Notation "'let*' x ':=' m 'in' k" := (bind m (fun x => k))
  (at level 10, x pattern, m at level 100, k at level 200).

(** ** The [packaging] library, as the resolver uses it *)

Class Packaging : Type := {
  (** [packaging.version.Version], identified with its comparison key *)
  Version : Type;
  (** [Version(v)]; [None] stands for [InvalidVersion] *)
  Version_parse : string -> option Version;
  Version_compare : Version -> Version -> comparison;
  (** [packaging.specifiers.SpecifierSet] *)
  SpecifierSet : Type;
  (** [SpecifierSet(s)]; [None] stands for [InvalidSpecifier] *)
  SpecifierSet_parse : string -> option SpecifierSet;
  (** [len(spec)]; [bool(spec)] is [len(spec) > 0] *)
  spec_len : SpecifierSet -> nat;
  (** [str(spec)] *)
  spec_str : SpecifierSet -> string;
  (** the conjunction of the clauses on a parsed version, pre-releases
      admitted *)
  spec_allows : SpecifierSet -> Version -> bool;
  (** [Requirement(line)] as [(r.name, r.specifier)]; [None] stands for
      [InvalidRequirement] *)
  Requirement_parse : string -> option (string * SpecifierSet)
}.

(** What the resolver relies on: [Version] objects are totally ordered. *)
Record PackagingLaws (P : Packaging) : Prop := {
  Version_compare_eq : forall a b : Version, Version_compare a b = Eq <-> a = b;
  Version_compare_antisym :
    forall a b : Version, Version_compare b a = CompOpp (Version_compare a b);
  Version_compare_trans :
    forall a b c : Version,
      Version_compare a b = Lt -> Version_compare b c = Lt -> Version_compare a c = Lt
}.

(** ** Data of the resolver *)

Inductive Source : Set := Existing | New | Upgrade.

Definition Source_eqb (a b : Source) : bool :=
  match a, b with
  | Existing, Existing | New, New | Upgrade, Upgrade => true
  | _, _ => false
  end.

Record PackageSelection : Set := mkSelection {
  sel_name : string;
  sel_version : string;
  sel_source : Source
}.

Record ResolutionResult : Type := mkResult {
  ok : bool;
  plan : gmap string PackageSelection;
  conflicts : list string
}.

(** The Neo4j client: the rows each of its two queries yields.  [None] in
    a row is a null property. *)
Record KGClient : Type := {
  rows_versions : string -> list string;
  rows_requires : string -> list (string * option string * option string)
}.

Definition MAX_QUEUE : nat := 2000.
Definition MAX_PACKAGES : nat := 800.

(** [x or ""] *)
Definition or_empty (x : option string) : string :=
  match x with
  | Some s => if PyStr.truthy s then s else ""
  | None => ""
  end.

(** ** The resolver *)

Section Resolver.

Context {P : Packaging}.

(** *** Version ordering *)

(** The sort key of [sort_versions]: [(0, Version(v))] for a version
    that parses, [(1, v)] otherwise. *)
Inductive sort_key : Type :=
| WellFormed (v : Version)
| Malformed (s : string).

Definition key (v : string) : sort_key :=
  match Version_parse v with
  | Some p => WellFormed p
  | None => Malformed v
  end.

(** Comparison of two keys as Python compares the tuples. *)
Definition key_compare (k1 k2 : sort_key) : comparison :=
  match k1, k2 with
  | WellFormed a, WellFormed b => Version_compare a b
  | WellFormed _, Malformed _ => Lt
  | Malformed _, WellFormed _ => Gt
  | Malformed a, Malformed b => String.compare a b
  end.

Definition key_lt (k1 k2 : sort_key) : Prop := key_compare k1 k2 = Lt.

Definition key_ltb (k1 k2 : sort_key) : bool :=
  match key_compare k1 k2 with Lt => true | _ => false end.

(** The order [sort_versions] sorts by, on version strings. *)
Definition version_lt (a b : string) : Prop := key_lt (key a) (key b).
Definition version_eq (a b : string) : Prop := key a = key b.

(** Stable insertion into a list that is in descending key order: [v]
    (which came earlier in the input) goes in front of the elements
    whose key is not greater. *)
Fixpoint insert_desc (v : string) (l : list string) : list string :=
  match l with
  | [] => [v]
  | w :: l' =>
      if key_ltb (key v) (key w) then w :: insert_desc v l' else v :: l
  end.

(** [sorted(versions, key=key, reverse=True)]: the stable sort into
    descending key order. *)
Definition sort_versions (versions : list string) : list string :=
  foldr insert_desc [] versions.

(** *** Specifiers *)

(** [spec.contains(v, prereleases=True)] on a version string:
    [packaging] first builds [Version(v)], which raises on a string that
    is no version. *)
Definition contains (spec : SpecifierSet) (v : string) : outcome bool :=
  match Version_parse v with
  | Some p => Ret (spec_allows spec p)
  | None => Raise InvalidVersion
  end.

(** [not spec or str(spec) == ""] *)
Definition spec_is_empty (spec : SpecifierSet) : bool :=
  Nat.eqb (spec_len spec) 0 || String.eqb (spec_str spec) "".

(** [pick_min_satisfying]: the lowest version allowed by [spec], or the
    latest one when [prefer_latest_when_any] and [spec] is empty.  Any
    exception of [spec.contains] skips the version. *)
Definition pick_min_satisfying (versions : list string) (spec : SpecifierSet)
    (prefer_latest_when_any : bool) : option string :=
  if prefer_latest_when_any && spec_is_empty spec
  then head (sort_versions versions)
  else
    List.find
      (fun v =>
         Nat.eqb (spec_len spec) 0 ||
         match contains spec v with Ret b => b | _ => false end)
      (rev (sort_versions versions)).

(** *** Requirement files *)

Fixpoint parse_requirements_from (result : OrderedDict.t string)
    (req_lines : list string) : outcome (OrderedDict.t string) :=
  match req_lines with
  | [] => Ret result
  | line :: rest =>
      let line := PyStr.strip line in
      if negb (PyStr.truthy line) || PyStr.startswith line "#"
      then parse_requirements_from result rest
      else
        match Requirement_parse line with
        | None => Raise InvalidRequirement
        | Some (rname, rspec) =>
            let name := normalize_name rname in
            let spec := if Nat.ltb 0 (spec_len rspec) then spec_str rspec else "" in
            parse_requirements_from (OrderedDict.set result name spec) rest
        end
  end.

Definition parse_requirements (req_lines : list string)
  : outcome (OrderedDict.t string) :=
  parse_requirements_from [] req_lines.

(** *** The Neo4j client *)

Definition get_versions (kg : KGClient) (name : string) : list string :=
  sort_versions (rows_versions kg name).

Definition get_requires (kg : KGClient) (name version : string)
  : list (string * string * string) :=
  map (fun '(dep, spec, marker) => (dep, or_empty spec, or_empty marker))
      (rows_requires kg (name +:+ "@" +:+ version)).

(** *** The search *)

(** An entry of the queue: [(name, SpecifierSet, tag)]. *)
Definition Target : Type := string * SpecifierSet * string.

(** What [dfs] returns: [(ok, plan, conflicts)]. *)
Definition dfs_result : Type := bool * gmap string PackageSelection * list string.

Definition msg_too_many_packages : string :=
  "处理的包数超过上限 800".
Definition msg_queue_too_long : string :=
  "队列超过上限 2000，中止".
Definition msg_no_versions (name : string) : string :=
  name +:+ ": 在图谱中无可用版本".
Definition msg_no_match (name : string) (spec : SpecifierSet) : string :=
  name +:+ ": 无法找到满足 " +:+ spec_str spec +:+ " 的版本".
Definition msg_exhausted (name : string) : string :=
  name +:+ ": 所有候选版本依赖冲突".
Definition msg_installed (k v s : string) : string :=
  k +:+ ": 已安装 " +:+ v +:+ " 不满足 " +:+ s.

(** [[v for v in vs if spec.contains(v, prereleases=True)]] *)
Fixpoint filter_contains (spec : SpecifierSet) (vs : list string)
  : outcome (list string) :=
  match vs with
  | [] => Ret []
  | v :: vs' =>
      let* b := contains spec v in
      let* rest := filter_contains spec vs' in
      Ret (if b then v :: rest else rest)
  end.

(** The candidates before the planned version is preferred. *)
Definition base_candidates (spec : SpecifierSet) (versions : list string)
  : outcome (list string) :=
  if spec_is_empty spec
  then Ret (sort_versions versions)
  else filter_contains spec (rev (sort_versions versions)).

(** A version the plan already holds, and that [spec] allows, is tried
    first. *)
Definition prefer_planned (spec : SpecifierSet)
    (plan_state : gmap string PackageSelection) (name : string)
    (cands : list string) : outcome (list string) :=
  match plan_state !! name with
  | None => Ret cands
  | Some sel =>
      let* b := contains spec (sel_version sel) in
      Ret (if b
           then sel_version sel
                :: List.filter (fun v => negb (String.eqb v (sel_version sel))) cands
           else cands)
  end.

(** The provenance written with a candidate. *)
Definition classify_source (plan_state : gmap string PackageSelection)
    (name cand : string) : Source :=
  match plan_state !! name with
  | None => New
  | Some sel =>
      if Source_eqb (sel_source sel) Existing && String.eqb (sel_version sel) cand
      then Existing
      else Upgrade
  end.

(** The dependency edges of a candidate appended to the queue; the edges
    of an extra are left out. *)
Fixpoint push_deps (name : string) (deps : list (string * string * string))
    (new_queue : list Target) : outcome (list Target) :=
  match deps with
  | [] => Ret new_queue
  | (dep_name, dep_spec, marker) :: deps' =>
      if PyStr.truthy marker && PyStr.contains "extra ==" marker
      then push_deps name deps' new_queue
      else
        match SpecifierSet_parse dep_spec with
        | None => Raise InvalidSpecifier
        | Some s =>
            push_deps name deps'
              (new_queue ++ [(normalize_name dep_name, s, "dep-of-" +:+ name)])
        end
  end.

(** The loop over the candidates; [rec] is the recursive call of [dfs]
    with the enlarged [visited]. *)
Fixpoint try_candidates
    (rec : list Target -> gmap string PackageSelection -> outcome dfs_result)
    (kg : KGClient) (name : string) (queue_state : list Target)
    (plan_state : gmap string PackageSelection) (cands : list string)
  : outcome dfs_result :=
  match cands with
  | [] => Ret (false, plan_state, [msg_exhausted name])
  | cand :: cands' =>
      let source := classify_source plan_state name cand in
      let new_plan := <[name := mkSelection name cand source]> plan_state in
      let* new_queue := push_deps name (get_requires kg name cand) queue_state in
      let* r := rec new_queue new_plan in
      if r.1.1 then Ret r
      else try_candidates rec kg name queue_state plan_state cands'
  end.

(** [dfs], with the depth of the Python call stack as [fuel]. *)
Fixpoint dfs (fuel : nat) (kg : KGClient) (queue_state : list Target)
    (plan_state : gmap string PackageSelection)
    (visited : gset (string * string)) : outcome dfs_result :=
  match fuel with
  | O => OutOfFuel
  | S fuel' =>
      if Nat.ltb MAX_PACKAGES (size plan_state)
      then Ret (false, plan_state, [msg_too_many_packages])
      else
        match queue_state with
        | [] => Ret (true, plan_state, [])
        | (name, spec, tag) :: queue_rest =>
            if Nat.ltb MAX_QUEUE (length queue_state)
            then Ret (false, plan_state, [msg_queue_too_long])
            else
              let key := (name, spec_str spec) in
              if bool_decide (key ∈ visited)
              then dfs fuel' kg queue_rest plan_state visited
              else
                let visited' := visited ∪ {[ key ]} in
                let versions := get_versions kg name in
                match versions with
                | [] => Ret (false, plan_state, [msg_no_versions name])
                | _ :: _ =>
                    let* cands := base_candidates spec versions in
                    match cands with
                    | [] => Ret (false, plan_state, [msg_no_match name spec])
                    | _ :: _ =>
                        let* cands := prefer_planned spec plan_state name cands in
                        try_candidates
                          (fun q p => dfs fuel' kg q p visited')
                          kg name queue_rest plan_state cands
                    end
                end
        end
  end.

(** The queue of [resolve_plan]: every target with its name normalised
    and its specifier parsed. *)
Fixpoint initial_queue (targets : list (string * string * string))
  : outcome (list Target) :=
  match targets with
  | [] => Ret []
  | (name, spec_s, tag) :: targets' =>
      match SpecifierSet_parse (or_empty (Some spec_s)) with
      | None => Raise InvalidSpecifier
      | Some s =>
          let* q := initial_queue targets' in
          Ret ((normalize_name name, s, tag) :: q)
      end
  end.

(** The plan [resolve_plan] starts from: the environment, keyed by
    normalised name, a later item overwriting an earlier one. *)
Definition initial_plan (current : OrderedDict.t string)
  : gmap string PackageSelection :=
  fold_left
    (fun m '(k, v) =>
       <[normalize_name k := mkSelection (normalize_name k) v Existing]> m)
    current ∅.

Definition resolve_plan (fuel : nat) (kg : KGClient)
    (current : OrderedDict.t string)
    (targets : list (string * string * string)) : outcome ResolutionResult :=
  let plan := initial_plan current in
  let* queue := initial_queue targets in
  let* r := dfs fuel kg queue plan ∅ in
  Ret (mkResult r.1.1 r.1.2 r.2).

(** *** The three tasks *)

(** The loop of [task1_check_single] over the requirement map: [inl] is
    the early return on an installed version that a requirement rejects,
    [inr] the dictionary [merged] after the loop. *)
Fixpoint check_installed (merged : OrderedDict.t (option string))
    (items : list (string * string))
  : outcome (ResolutionResult + OrderedDict.t (option string)) :=
  match items with
  | [] => Ret (inr merged)
  | (k, s) :: items' =>
      let continue :=
        check_installed (OrderedDict.setdefault merged k None) items' in
      if PyStr.truthy s
      then
        match OrderedDict.get merged k with
        | None => continue
        | Some installed =>
            match SpecifierSet_parse s with
            | None => Raise InvalidSpecifier
            | Some spec =>
                match installed with
                | None => Raise TypeError
                | Some v =>
                    let* b := contains spec v in
                    if b then continue
                    else Ret (inl (mkResult false ∅ [msg_installed k v s]))
                end
            end
        end
      else continue
  end.

(** [{k: v for k, v in merged.items() if v}] *)
Definition installed_items (merged : OrderedDict.t (option string))
  : OrderedDict.t string :=
  omap (fun '(k, v) =>
          match v with
          | Some s => if PyStr.truthy s then Some (k, s) else None
          | None => None
          end) merged.

Definition task1_check_single (fuel : nat) (kg : KGClient)
    (current : OrderedDict.t string) (req_lines : list string)
    (new_pkg spec : string) : outcome ResolutionResult :=
  let* req_map := parse_requirements req_lines in
  let merged := map (fun '(k, v) => (k, Some v)) current in
  let* checked := check_installed merged req_map in
  match checked with
  | inl failure => Ret failure
  | inr merged =>
      let targets := [(new_pkg, spec, "target")] in
      resolve_plan fuel kg (installed_items merged) targets
  end.

(** The requirement-file entries that become targets: those of packages
    present in the environment and carrying a specifier. *)
Definition req_targets (merged : OrderedDict.t string)
    (req_map : OrderedDict.t string) : list (string * string * string) :=
  omap (fun '(k, s) =>
          if OrderedDict.mem merged k && PyStr.truthy s
          then Some (k, s, "req") else None) req_map.

Definition task2_install_single_with_upgrade (fuel : nat) (kg : KGClient)
    (current : OrderedDict.t string) (req_lines : list string)
    (new_pkg min_spec : string) : outcome ResolutionResult :=
  let* req_map := parse_requirements req_lines in
  let merged := current in
  let targets := [(new_pkg, min_spec, "target")] ++ req_targets merged req_map in
  resolve_plan fuel kg merged targets.

Definition task3_install_multi_with_upgrade (fuel : nat) (kg : KGClient)
    (current : OrderedDict.t string) (req_lines : list string)
    (new_pkgs : list (string * string)) : outcome ResolutionResult :=
  let* req_map := parse_requirements req_lines in
  let merged := current in
  let targets :=
    map (fun '(name, spec) => (name, spec, "target")) new_pkgs
    ++ req_targets merged req_map in
  resolve_plan fuel kg merged targets.

End Resolver.

(** ** A reference implementation of the [packaging] interface

    The release-only fragment of PEP 440: versions are dotted decimal
    numbers, compared segment by segment after the trailing zeros are
    dropped; a specifier set is a comma-separated list of clauses with one
    of the operators [>=], [<=], [==], [!=], [>], [<]; a requirement is a
    name followed by a specifier set.  Every string outside the fragment
    is rejected. *)

Module ReleaseOnly.

Definition is_digit (c : ascii) : bool :=
  let n := N_of_ascii c in ((48 <=? n) && (n <=? 57))%N.

Fixpoint digits_value (acc : N) (s : string) : option N :=
  match s with
  | EmptyString => Some acc
  | String c s' =>
      if is_digit c
      then digits_value (acc * 10 + (N_of_ascii c - 48))%N s'
      else None
  end.

Definition parse_number (s : string) : option N :=
  match s with
  | EmptyString => None
  | _ => digits_value 0%N s
  end.

(** [s.split(sep)] for a one-character separator. *)
Fixpoint split (sep : ascii) (s : string) : list string :=
  match s with
  | EmptyString => [EmptyString]
  | String c s' =>
      if Ascii.eqb c sep then EmptyString :: split sep s'
      else
        match split sep s' with
        | [] => [String c EmptyString]
        | w :: ws => String c w :: ws
        end
  end.

Fixpoint drop_trailing_zeros (l : list N) : list N :=
  match l with
  | [] => []
  | n :: l' =>
      match drop_trailing_zeros l' with
      | [] => if N.eqb n 0 then [] else [n]
      | r => n :: r
      end
  end.

Definition version : Type := list N.

Definition parse_version (s : string) : option version :=
  drop_trailing_zeros <$> mapM parse_number (split "." s).

Fixpoint compare_version (a b : version) : comparison :=
  match a, b with
  | [], [] => Eq
  | [], _ :: _ => Lt
  | _ :: _, [] => Gt
  | x :: a', y :: b' =>
      match N.compare x y with
      | Eq => compare_version a' b'
      | c => c
      end
  end.

Inductive operator : Set := Ge | Le | EqOp | Ne | Gt_ | Lt_.

Definition operator_str (o : operator) : string :=
  match o with
  | Ge => ">=" | Le => "<=" | EqOp => "==" | Ne => "!=" | Gt_ => ">" | Lt_ => "<"
  end.

Record clause : Type := mkClause {
  clause_op : operator;
  clause_text : string;
  clause_version : version
}.

Definition clause_str (c : clause) : string :=
  operator_str (clause_op c) +:+ clause_text c.

Definition clause_allows (c : clause) (v : version) : bool :=
  match clause_op c, compare_version v (clause_version c) with
  | Ge, (Eq | Gt) => true
  | Le, (Eq | Lt) => true
  | EqOp, Eq => true
  | Ne, (Lt | Gt) => true
  | Gt_, Gt => true
  | Lt_, Lt => true
  | _, _ => false
  end.

Definition drop (n : nat) (s : string) : string :=
  String.substring n (String.length s - n) s.

Definition parse_operator (s : string) : option (operator * string) :=
  if PyStr.is_prefix ">=" s then Some (Ge, drop 2 s)
  else if PyStr.is_prefix "<=" s then Some (Le, drop 2 s)
  else if PyStr.is_prefix "==" s then Some (EqOp, drop 2 s)
  else if PyStr.is_prefix "!=" s then Some (Ne, drop 2 s)
  else if PyStr.is_prefix ">" s then Some (Gt_, drop 1 s)
  else if PyStr.is_prefix "<" s then Some (Lt_, drop 1 s)
  else None.

Definition parse_clause (s : string) : option clause :=
  '(o, rest) ← parse_operator (PyStr.strip s);
  let text := PyStr.strip rest in
  v ← parse_version text;
  Some (mkClause o text v).

(** Insertion into a list of clauses kept in the order of their
    strings, without repetition. *)
Fixpoint insert_clause (c : clause) (l : list clause) : list clause :=
  match l with
  | [] => [c]
  | d :: l' =>
      match String.compare (clause_str c) (clause_str d) with
      | Lt => c :: l
      | Eq => l
      | Gt => d :: insert_clause c l'
      end
  end.

Definition specifier_set : Type := list clause.

Definition parse_specifier_set (s : string) : option specifier_set :=
  let parts :=
    List.filter (fun p => PyStr.truthy p) (map PyStr.strip (split "," s)) in
  foldr insert_clause [] <$> mapM parse_clause parts.

Fixpoint join (sep : string) (l : list string) : string :=
  match l with
  | [] => ""
  | [s] => s
  | s :: l' => s +:+ sep +:+ join sep l'
  end.

Definition specifier_set_str (s : specifier_set) : string :=
  join "," (map clause_str s).

Definition specifier_set_allows (s : specifier_set) (v : version) : bool :=
  forallb (fun c => clause_allows c v) s.

Definition is_name_char (c : ascii) : bool :=
  let n := N_of_ascii c in
  (is_digit c || (65 <=? n) && (n <=? 90) || (97 <=? n) && (n <=? 122)
   || Ascii.eqb c "." || Ascii.eqb c "_" || Ascii.eqb c "-")%N.

Fixpoint span_name (s : string) : string * string :=
  match s with
  | EmptyString => (EmptyString, EmptyString)
  | String c s' =>
      if is_name_char c
      then let '(n, rest) := span_name s' in (String c n, rest)
      else (EmptyString, s)
  end.

Definition parse_requirement (line : string) : option (string * specifier_set) :=
  let '(n, rest) := span_name (PyStr.strip line) in
  if PyStr.truthy n
  then s ← parse_specifier_set rest; Some (n, s)
  else None.

End ReleaseOnly.

#[export] Instance release_only : Packaging := {|
  Version := ReleaseOnly.version;
  Version_parse := ReleaseOnly.parse_version;
  Version_compare := ReleaseOnly.compare_version;
  SpecifierSet := ReleaseOnly.specifier_set;
  SpecifierSet_parse := ReleaseOnly.parse_specifier_set;
  spec_len := @length ReleaseOnly.clause;
  spec_str := ReleaseOnly.specifier_set_str;
  spec_allows := ReleaseOnly.specifier_set_allows;
  Requirement_parse := ReleaseOnly.parse_requirement
|}.

(** ** Auxiliary notions used by the statements *)

(** A client answering from two tables (the first matching row counts). *)
Definition table_kg (versions : list (string * list string))
    (requires : list (string * list (string * option string * option string)))
  : KGClient :=
  {| rows_versions := fun name => default [] (OrderedDict.get versions name);
     rows_requires := fun nv => default [] (OrderedDict.get requires nv) |}.


Section Trace.

Context {P : Packaging}.

(** A version satisfies a specifier: the specifier is empty, or
    [spec.contains] answers [True]. *)
Definition satisfies (spec : SpecifierSet) (v : string) : Prop :=
  spec_is_empty spec = true \/ contains spec v = Ret true.

(** An assignment of the search: the name and specifier of the expanded
    target and the candidate written into the plan. *)
Definition Assignment : Type := string * SpecifierSet * string.

(** [try_candidates] and [dfs] again, returning besides their result the
    assignments made along the branch that succeeded, oldest first. *)
Fixpoint try_candidates_traced
    (rec : list Target -> gmap string PackageSelection
           -> outcome (dfs_result * list Assignment))
    (kg : KGClient) (name : string) (spec : SpecifierSet)
    (queue_state : list Target)
    (plan_state : gmap string PackageSelection) (cands : list string)
  : outcome (dfs_result * list Assignment) :=
  match cands with
  | [] => Ret ((false, plan_state, [msg_exhausted name]), [])
  | cand :: cands' =>
      let source := classify_source plan_state name cand in
      let new_plan := <[name := mkSelection name cand source]> plan_state in
      let* new_queue := push_deps name (get_requires kg name cand) queue_state in
      let* r := rec new_queue new_plan in
      if r.1.1.1 then Ret (r.1, (name, spec, cand) :: r.2)
      else try_candidates_traced rec kg name spec queue_state plan_state cands'
  end.

Fixpoint dfs_traced (fuel : nat) (kg : KGClient) (queue_state : list Target)
    (plan_state : gmap string PackageSelection)
    (visited : gset (string * string))
  : outcome (dfs_result * list Assignment) :=
  match fuel with
  | O => OutOfFuel
  | S fuel' =>
      if Nat.ltb MAX_PACKAGES (size plan_state)
      then Ret ((false, plan_state, [msg_too_many_packages]), [])
      else
        match queue_state with
        | [] => Ret ((true, plan_state, []), [])
        | (name, spec, tag) :: queue_rest =>
            if Nat.ltb MAX_QUEUE (length queue_state)
            then Ret ((false, plan_state, [msg_queue_too_long]), [])
            else
              let key := (name, spec_str spec) in
              if bool_decide (key ∈ visited)
              then dfs_traced fuel' kg queue_rest plan_state visited
              else
                let visited' := visited ∪ {[ key ]} in
                let versions := get_versions kg name in
                match versions with
                | [] => Ret ((false, plan_state, [msg_no_versions name]), [])
                | _ :: _ =>
                    let* cands := base_candidates spec versions in
                    match cands with
                    | [] => Ret ((false, plan_state, [msg_no_match name spec]), [])
                    | _ :: _ =>
                        let* cands := prefer_planned spec plan_state name cands in
                        try_candidates_traced
                          (fun q p => dfs_traced fuel' kg q p visited')
                          kg name spec queue_rest plan_state cands
                    end
                end
        end
  end.

(** The last assignment a trace makes to [name]. *)
Fixpoint last_assignment (trace : list Assignment) (name : string)
  : option (SpecifierSet * string) :=
  match trace with
  | [] => None
  | (n, s, v) :: trace' =>
      match last_assignment trace' name with
      | Some a => Some a
      | None => if String.eqb n name then Some (s, v) else None
      end
  end.

(** What a requirement line contributes to the requirement map: nothing
    for a blank line or a comment, else the normalised name and the
    specifier string. *)
Definition line_entry (line : string) : option (string * string) :=
  let line := PyStr.strip line in
  if negb (PyStr.truthy line) || PyStr.startswith line "#" then None
  else
    match Requirement_parse line with
    | None => None
    | Some (rname, rspec) =>
        Some (normalize_name rname,
              if Nat.ltb 0 (spec_len rspec) then spec_str rspec else "")
    end.


End Trace.



(** [a] is not older than [b], and [a] is not newer than [b], in the
    order of [sort_versions]. *)
Definition not_older {P : Packaging} (a b : string) : Prop := ~ version_lt a b.
Definition not_newer {P : Packaging} (a b : string) : Prop := ~ version_lt b a.

(** [spec.contains(v, prereleases=True)] answers [True]. *)
Definition allowed {P : Packaging} (spec : SpecifierSet) (v : string) : bool :=
  match Version_parse v with
  | Some p => spec_allows spec p
  | None => false
  end.


(** The environment and the metadata of scenario B of the design
    document, with one more package. *)
Definition demo_kg : KGClient :=
  table_kg
    [("numpy", ["1.20.0"; "1.24.0"; "1.25.0"]); ("pandas", ["2.0"])]
    [("pandas@2.0", [("numpy", Some ">=1.24", None)])].

(** Forgetting the trace. *)
Definition forget_trace {P : Packaging}
    (o : outcome (dfs_result * list Assignment)) : outcome dfs_result :=
  let* x := o in Ret x.1.

(** What a trace says about the plan that came out of plan [p]: a name it
    assigns holds the version of its last assignment, any other name is
    as in [p]. *)
Definition plan_follows_trace {P : Packaging}
    (p p' : gmap string PackageSelection) (trace : list Assignment) : Prop :=
  forall name,
    match last_assignment trace name with
    | Some (_, v) => exists sel, p' !! name = Some sel /\ sel_version sel = v
    | None => p' !! name = p !! name
    end.

(** A client whose answer for package [a] holds a string that is no
    version. *)
Definition malformed_kg : KGClient :=
  table_kg [("a", ["1.0"; "not-a-version"])] [].


(** The specifier string of the last line that names [name]. *)
Fixpoint last_entry {P : Packaging} (req_lines : list string) (name : string)
  : option string :=
  match req_lines with
  | [] => None
  | line :: rest =>
      match last_entry rest name with
      | Some s => Some s
      | None =>
          match line_entry line with
          | Some (n, s) => if String.eqb n name then Some s else None
          | None => None
          end
      end
  end.

(** A line that names [name]. *)
Definition names_package {P : Packaging} (name line : string) : Prop :=
  exists s, line_entry line = Some (name, s).

(** The [visited] key of a target. *)
Definition target_key {P : Packaging} (t : Target) : string * string :=
  (t.1.1, spec_str t.1.2).

(** The keys of the targets that the edges of [name@version] enqueue. *)
Definition deps_keys {P : Packaging} (kg : KGClient) (name version : string)
  : gset (string * string) :=
  match push_deps name (get_requires kg name version) [] with
  | Ret l => list_to_set (target_key <$> l)
  | _ => ∅
  end.

(** The keys that can still be expanded while the plan keeps its names:
    those in the queue, and those that the edges of a planned package
    enqueue, at its planned version or at any of its known versions. *)
Definition pending_keys {P : Packaging} (kg : KGClient) (queue_state : list Target)
    (plan_state : gmap string PackageSelection) : gset (string * string) :=
  list_to_set (target_key <$> queue_state)
  ∪ ⋃ ((fun bs : string * PackageSelection =>
          ⋃ (deps_keys kg bs.1 <$> (sel_version bs.2 :: get_versions kg bs.1)))
       <$> map_to_list plan_state).

(** The search ends: some depth of the call stack suffices. *)
Definition terminates {P : Packaging} (kg : KGClient) (queue_state : list Target)
    (plan_state : gmap string PackageSelection)
    (visited : gset (string * string)) : Prop :=
  exists fuel, dfs fuel kg queue_state plan_state visited <> OutOfFuel.

(** Two packages whose requirements on [numpy] exclude each other. *)
Definition conflict_kg : KGClient :=
  table_kg
    [("a", ["1.0"]); ("b", ["1.0"]); ("numpy", ["1.20.0"; "1.24.0"])]
    [("a@1.0", [("numpy", Some ">=1.24", None)]);
     ("b@1.0", [("numpy", Some "<1.21", None)])].

(** A client whose edge for [a@1.0] carries a string that is no
    specifier. *)
Definition malformed_edge_kg : KGClient :=
  table_kg [("a", ["1.0"])] [("a@1.0", [("b", Some "=>1.0", None)])].

(** The result of the check of [pandas] against an environment with an
    old [numpy], used to illustrate the properties of a successful
    search. *)
Definition demo_success : ResolutionResult :=
  mkResult true
    (<[ "numpy" := mkSelection "numpy" "1.24.0" Upgrade ]>
       {[ "pandas" := mkSelection "pandas" "2.0" New ]})
    [].

(** The [visited] key of an assignment. *)
Definition assignment_key {P : Packaging} (a : Assignment) : string * string :=
  (a.1.1, spec_str a.1.2).

(** Two queues that hold the same names and specifiers, whatever their
    tags. *)
Definition same_targets {P : Packaging} (q1 q2 : list Target) : Prop :=
  Forall2 (fun a b : Target => a.1 = b.1) q1 q2.

(** A row of the requirement query whose marker scopes the edge to an
    extra. *)
Definition is_extra_row (row : string * option string * option string) : bool :=
  PyStr.truthy (or_empty row.2) && PyStr.contains "extra ==" (or_empty row.2).

(** The client without the edges of extras. *)
Definition drop_extras (kg : KGClient) : KGClient :=
  {| rows_versions := rows_versions kg;
     rows_requires := fun nv =>
       List.filter (fun row => negb (is_extra_row row)) (rows_requires kg nv) |}.

(** A client with an edge of an extra, whose specifier does not even
    parse. *)
Definition extras_kg : KGClient :=
  table_kg
    [("numpy", ["1.20.0"; "1.24.0"]); ("pandas", ["2.0"])]
    [("pandas@2.0",
      [("numpy", Some ">=1.24", None);
       ("pytest", Some "=>7", Some "extra == 'test'")])].

(** The version string [v] has the sort key [k]. *)
Definition has_key {P : Packaging} (k : sort_key) (v : string) : bool :=
  match key_compare k (key v) with Eq => true | _ => false end.

(** What [pick_min_satisfying] accepts: [not spec or
    spec.contains(v, prereleases=True)], an exception counting as a
    refusal. *)
Definition acceptable {P : Packaging} (spec : SpecifierSet) (v : string) : bool :=
  Nat.eqb (spec_len spec) 0 || allowed spec v.

(** The specifier set [>=1.5] of the reference implementation. *)
Definition at_least_1_5 : ReleaseOnly.specifier_set :=
  [ReleaseOnly.mkClause ReleaseOnly.Ge "1.5" [1%N; 5%N]].

(** A line that is neither blank nor a comment and that [Requirement]
    rejects. *)
Definition line_is_malformed {P : Packaging} (line : string) : bool :=
  let line := PyStr.strip line in
  negb (negb (PyStr.truthy line) || PyStr.startswith line "#")
  && match Requirement_parse line with None => true | Some _ => false end.

(** A dictionary without the entries of key [name]. *)
Definition remove_key {V} (name : string) (d : OrderedDict.t V) : OrderedDict.t V :=
  List.filter (fun kv => negb (String.eqb kv.1 name)) d.

(** The environment with its entries of an empty version string left out:
    [{k: v for k, v in current.items() if v}]. *)
Definition with_version (current : OrderedDict.t string) : OrderedDict.t string :=
  List.filter (fun kv => PyStr.truthy kv.2) current.

(** The installed version of [k], if any, is one that requirement [s]
    allows. *)
Definition requirement_met {P : Packaging} (current : OrderedDict.t string)
    (k s : string) : Prop :=
  PyStr.truthy s = true ->
  forall v, OrderedDict.get current k = Some v ->
    exists spec, SpecifierSet_parse s = Some spec /\ contains spec v = Ret true.

(** The character map of [normalize_name]. *)
Definition normalize_char (c : ascii) : ascii :=
  if Ascii.eqb (PyStr.lower_char c) "_" then "-"%char else PyStr.lower_char c.

(** The item of [current] that gives the plan its entry [n]: the last one
    whose key normalises to [n]. *)
Definition environment_item (current : OrderedDict.t string) (n : string)
  : option (string * string) :=
  List.find (fun kv => String.eqb (normalize_name kv.1) n) (rev current).






(** ** The planning endpoint of [html/server.py] *)

(** [PackageInput]: a package of the posted environment; [version] is
    optional. *)
Record PackageInput : Set := mkPackageInput {
  pi_name : string;
  pi_version : option string
}.

(** [PlanTarget]: a package to install; [spec] is optional. *)
Record PlanTarget : Set := mkPlanTarget {
  pt_name : string;
  pt_spec : option string
}.

(** The answer of the endpoint, without its [plan_text], which spells the
    same plan out as lines of text. *)
Record PlanResponse : Type := mkPlanResponse {
  resp_ok : bool;
  resp_conflicts : list string;
  resp_plan : gmap string (string * Source)
}.

(** [{norm_task(p.name): p.version for p in req.env if p.version}] *)
Definition plan_current (env : list PackageInput) : OrderedDict.t string :=
  fold_left
    (fun d p =>
       match pi_version p with
       | Some v =>
           if PyStr.truthy v
           then OrderedDict.set d (normalize_name (pi_name p)) v
           else d
       | None => d
       end)
    env [].

(** The loop that builds [targets]. *)
Definition plan_targets (targets : list PlanTarget) : list (string * string) :=
  map (fun t => (normalize_name (pt_name t), or_empty (pt_spec t))) targets.

Definition plan_response (res : ResolutionResult) : PlanResponse :=
  mkPlanResponse (ok res) (conflicts res)
    (if ok res
     then (fun sel => (sel_version sel, sel_source sel)) <$> plan res
     else ∅).

(** [plan] of [html/server.py], the handler of [/plan]. *)
Definition plan_endpoint {P : Packaging} (fuel : nat) (kg : KGClient)
    (env : list PackageInput) (targets : list PlanTarget)
  : outcome PlanResponse :=
  let current := plan_current env in
  let targets := plan_targets targets in
  let* res := task3_install_multi_with_upgrade fuel kg current [] targets in
  Ret (plan_response res).

(** The item a posted package stands for, if it has a version. *)
Definition input_item (p : PackageInput) : option (string * string) :=
  match pi_version p with
  | Some v => if PyStr.truthy v then Some (pi_name p, v) else None
  | None => None
  end.

(** The posted packages that have a version, as posted. *)
Definition installed_inputs (env : list PackageInput) : OrderedDict.t string :=
  omap input_item env.

(** The posted targets, as posted. *)
Definition named_targets (targets : list PlanTarget)
  : list (string * string * string) :=
  map (fun t => (pt_name t, or_empty (pt_spec t), "target")) targets.

(** * Properties *)

(** ** The model at work *)

Example normalize_name_trims_and_lowers :
  normalize_name "  Typing_Extensions " = "typing-extensions".
Proof. reflexivity. Qed.

Example sort_versions_newest_first :
  sort_versions ["1.20.0"; "oops"; "1.25.0"; "1.24"; "1.24.0"]
  = ["oops"; "1.25.0"; "1.24"; "1.24.0"; "1.20.0"].
Proof. reflexivity. Qed.

Example parse_requirements_skips_comments :
  parse_requirements ["# pinned"; "Typing_Extensions >=4.0, <5"; ""; "numpy"]
  = Ret [("typing-extensions", "<5,>=4.0"); ("numpy", "")].
Proof. reflexivity. Qed.

(** Scenario A of the design document: the installed version already
    satisfies the target. *)
Example scenario_keeps_installed :
  resolve_plan 8 demo_kg [("numpy", "1.24.0")] [("numpy", ">=1.24.0", "target")]
  = Ret (mkResult true {[ "numpy" := mkSelection "numpy" "1.24.0" Existing ]} []).
Proof. vm_compute. reflexivity. Qed.

(** Scenario B: the oldest version that satisfies the target is taken. *)
Example scenario_minimal_upgrade :
  resolve_plan 8 demo_kg [("numpy", "1.20.0")] [("numpy", ">=1.24.0", "target")]
  = Ret (mkResult true {[ "numpy" := mkSelection "numpy" "1.24.0" Upgrade ]} []).
Proof. vm_compute. reflexivity. Qed.

(** Scenario C: a package the graph does not know. *)
Example scenario_unknown_package :
  resolve_plan 8 demo_kg [] [("scipy", "", "target")]
  = Ret (mkResult false ∅ [msg_no_versions "scipy"]).
Proof. vm_compute. reflexivity. Qed.

(** Scenario E: the edge of an extra is not enqueued. *)
Example scenario_extra_edge_skipped :
  push_deps "pkg"
    [("dep", ">=1.0", "extra == 'bar'"); ("other", "", "python_version > '3'")] []
  = Ret [("other", [], "dep-of-pkg")].
Proof. vm_compute. reflexivity. Qed.

(** ** Package names *)







Lemma map_chars_compose (f g : ascii -> ascii) (s : string) :
  PyStr.map_chars f (PyStr.map_chars g s) = PyStr.map_chars (fun c => f (g c)) s.
Proof. induction s as [|c s IH]; simpl; [reflexivity|]. now rewrite IH. Qed.


Lemma normalize_char_space (c : ascii) :
  PyStr.is_space
    (if Ascii.eqb (PyStr.lower_char c) "_" then "-"%char else PyStr.lower_char c)
  = PyStr.is_space c.
Proof. destruct c as [[] [] [] [] [] [] [] []]; reflexivity. Qed.




(** ** The order on strings *)

Lemma ascii_compare_refl (c : ascii) : Ascii.compare c c = Eq.
Proof. apply N.compare_refl. Qed.

Lemma ascii_compare_lt_trans (a b c : ascii) :
  Ascii.compare a b = Lt -> Ascii.compare b c = Lt -> Ascii.compare a c = Lt.
Proof.
  unfold Ascii.compare. rewrite !N.compare_lt_iff. apply N.lt_trans.
Qed.

Lemma string_compare_refl (s : string) : String.compare s s = Eq.
Proof.
  induction s as [|c s IH]; simpl; [reflexivity|].
  now rewrite ascii_compare_refl.
Qed.

Lemma string_compare_eq (a b : string) : String.compare a b = Eq <-> a = b.
Proof.
  split; [apply String.compare_eq_iff|intros ->; apply string_compare_refl].
Qed.

Lemma string_compare_lt_trans (a b c : string) :
  String.compare a b = Lt -> String.compare b c = Lt -> String.compare a c = Lt.
Proof.
  revert b c; induction a as [|x a IH]; intros [|y b] [|z c]; simpl;
    try discriminate; try reflexivity.
  destruct (Ascii.compare x y) eqn:Hxy; try discriminate;
    destruct (Ascii.compare y z) eqn:Hyz; try discriminate; intros Hab Hbc.
  - apply Ascii.compare_eq_iff in Hxy, Hyz. subst.
    rewrite ascii_compare_refl. eauto.
  - apply Ascii.compare_eq_iff in Hxy. subst. now rewrite Hyz.
  - apply Ascii.compare_eq_iff in Hyz. subst. now rewrite Hxy.
  - now rewrite (ascii_compare_lt_trans _ _ _ Hxy Hyz).
Qed.

(** ** The order of [sort_versions] *)

Section VersionOrder.

Context {P : Packaging} (laws : PackagingLaws P).

Lemma key_compare_eq (k1 k2 : sort_key) : key_compare k1 k2 = Eq <-> k1 = k2.
Proof.
  destruct k1 as [a|a], k2 as [b|b]; simpl.
  - rewrite (Version_compare_eq P laws). split; congruence.
  - split; discriminate.
  - split; discriminate.
  - rewrite string_compare_eq. split; congruence.
Qed.

Lemma key_compare_antisym (k1 k2 : sort_key) :
  key_compare k2 k1 = CompOpp (key_compare k1 k2).
Proof.
  destruct k1 as [a|a], k2 as [b|b]; simpl; try reflexivity.
  - apply (Version_compare_antisym P laws).
  - apply String.compare_antisym.
Qed.

Lemma key_lt_trans (k1 k2 k3 : sort_key) :
  key_lt k1 k2 -> key_lt k2 k3 -> key_lt k1 k3.
Proof.
  unfold key_lt.
  destruct k1 as [a|a], k2 as [b|b], k3 as [c|c]; simpl;
    try discriminate; try reflexivity.
  - apply (Version_compare_trans P laws).
  - apply string_compare_lt_trans.
Qed.

Lemma key_lt_irrefl (k : sort_key) : ~ key_lt k k.
Proof.
  unfold key_lt. intros H.
  assert (key_compare k k = Eq) as E by now apply key_compare_eq.
  congruence.
Qed.

Lemma key_lt_asym (k1 k2 : sort_key) : key_lt k1 k2 -> ~ key_lt k2 k1.
Proof. intros H1 H2. exact (key_lt_irrefl _ (key_lt_trans _ _ _ H1 H2)). Qed.

Lemma key_trichotomy (k1 k2 : sort_key) :
  key_lt k1 k2 \/ k1 = k2 \/ key_lt k2 k1.
Proof.
  unfold key_lt. rewrite (key_compare_antisym k1 k2).
  destruct (key_compare k1 k2) eqn:E; simpl; auto.
  right; left. now apply key_compare_eq.
Qed.

(** C6: the order [sort_versions] sorts by is a strict total order on
    versions (two strings that parse to the same [Version] being the same
    version): exactly one of [a < b], [a = b], [b < a] holds, and [<] is
    transitive; a string that does not parse comes after every string
    that does; two strings that do not parse compare as strings. *)
Theorem version_order_strict_total :
  (forall a b : string,
      (version_lt a b /\ ~ version_eq a b /\ ~ version_lt b a) \/
      (~ version_lt a b /\ version_eq a b /\ ~ version_lt b a) \/
      (~ version_lt a b /\ ~ version_eq a b /\ version_lt b a)) /\
  (forall a b c : string, version_lt a b -> version_lt b c -> version_lt a c) /\
  (forall a b : string,
      Version_parse a = None -> Version_parse b <> None -> version_lt b a) /\
  (forall a b : string,
      Version_parse a = None -> Version_parse b = None ->
      (version_lt a b <-> PyStr.lt a b) /\ (version_eq a b <-> a = b)).
Proof.
  unfold version_lt, version_eq. repeat split.
  - intros a b.
    destruct (key_trichotomy (key a) (key b)) as [H|[H|H]].
    + left. repeat split; [exact H| |now apply key_lt_asym].
      intros E. rewrite E in H. exact (key_lt_irrefl _ H).
    + right; left. rewrite H. repeat split; auto using key_lt_irrefl.
    + right; right. repeat split; [now apply key_lt_asym| |exact H].
      intros E. rewrite E in H. exact (key_lt_irrefl _ H).
  - intros a b c. apply key_lt_trans.
  - intros a b Ha Hb. unfold key, key_lt. rewrite Ha.
    destruct (Version_parse b); [reflexivity|congruence].
  - unfold key, key_lt, PyStr.lt. rewrite H, H0. simpl. auto.
  - unfold key, key_lt, PyStr.lt. rewrite H, H0. simpl. auto.
  - unfold key. rewrite H, H0. congruence.
  - unfold key. rewrite H, H0. congruence.
Qed.

End VersionOrder.

(** ** The reference implementation obeys the laws *)

Lemma compare_version_eq (a b : ReleaseOnly.version) :
  ReleaseOnly.compare_version a b = Eq <-> a = b.
Proof.
  revert b; induction a as [|x a IH]; intros [|y b]; simpl;
    try (split; (reflexivity || discriminate)).
  destruct (N.compare x y) eqn:E.
  - apply N.compare_eq in E. subst. rewrite IH. split; congruence.
  - split; [discriminate|]. intros [= -> _]. now rewrite N.compare_refl in E.
  - split; [discriminate|]. intros [= -> _]. now rewrite N.compare_refl in E.
Qed.

Lemma compare_version_antisym (a b : ReleaseOnly.version) :
  ReleaseOnly.compare_version b a = CompOpp (ReleaseOnly.compare_version a b).
Proof.
  revert b; induction a as [|x a IH]; intros [|y b]; simpl; try reflexivity.
  rewrite (N.compare_antisym x y).
  destruct (N.compare x y); simpl; auto.
Qed.

Lemma compare_version_trans (a b c : ReleaseOnly.version) :
  ReleaseOnly.compare_version a b = Lt ->
  ReleaseOnly.compare_version b c = Lt ->
  ReleaseOnly.compare_version a c = Lt.
Proof.
  revert b c; induction a as [|x a IH]; intros [|y b] [|z c]; simpl;
    try discriminate; try reflexivity.
  destruct (N.compare x y) eqn:Hxy; try discriminate;
    destruct (N.compare y z) eqn:Hyz; try discriminate; intros Hab Hbc.
  - apply N.compare_eq in Hxy, Hyz. subst. rewrite N.compare_refl. eauto.
  - apply N.compare_eq in Hxy. subst. now rewrite Hyz.
  - apply N.compare_eq in Hyz. subst. now rewrite Hxy.
  - rewrite N.compare_lt_iff in *.
    now rewrite (proj2 (N.compare_lt_iff x z) (N.lt_trans _ _ _ Hxy Hyz)).
Qed.

Lemma release_only_laws : PackagingLaws release_only.
Proof.
  constructor.
  - exact compare_version_eq.
  - exact compare_version_antisym.
  - exact compare_version_trans.
Qed.

Lemma version_order_strict_total_witness :
  PackagingLaws release_only /\
  version_lt "1.9" "2.0" /\ version_lt "2.0" "rolling".
Proof.
  destruct (version_order_strict_total release_only_laws) as (_ & Tr & Mal & _).
  split; [exact release_only_laws|]. split.
  - apply (Tr "1.9" "1.10" "2.0"); reflexivity.
  - apply Mal; [reflexivity|discriminate].
Defined.

(** ** [sort_versions] sorts *)

Section Sorting.

Context {P : Packaging} (laws : PackagingLaws P).

Lemma key_ltb_lt (k1 k2 : sort_key) : key_ltb k1 k2 = true <-> key_lt k1 k2.
Proof.
  unfold key_ltb, key_lt. destruct (key_compare k1 k2); split; congruence.
Qed.

Lemma not_older_trans (a b c : string) :
  not_older a b -> not_older b c -> not_older a c.
Proof.
  unfold not_older, version_lt. intros Hab Hbc Hac.
  destruct (key_trichotomy laws (key b) (key a)) as [H|[H|H]].
  - apply Hbc. exact (key_lt_trans laws _ _ _ H Hac).
  - apply Hbc. now rewrite H.
  - now apply Hab.
Qed.

Lemma insert_desc_perm (v : string) (l : list string) :
  Permutation (insert_desc v l) (v :: l).
Proof.
  induction l as [|w l IH]; simpl; [reflexivity|].
  destruct (key_ltb (key v) (key w)); [|reflexivity].
  rewrite IH. apply perm_swap.
Qed.

Lemma sort_versions_perm (versions : list string) :
  Permutation (sort_versions versions) versions.
Proof.
  induction versions as [|v l IH]; simpl; [reflexivity|].
  rewrite insert_desc_perm. now apply perm_skip.
Qed.

Lemma insert_desc_sorted (v : string) (l : list string) :
  StronglySorted not_older l -> StronglySorted not_older (insert_desc v l).
Proof.
  induction 1 as [|w l Hs IH Hw]; simpl.
  - constructor; constructor.
  - destruct (key_ltb (key v) (key w)) eqn:E.
    + apply key_ltb_lt in E. constructor; [exact IH|].
      apply (Permutation_Forall (Permutation_sym (insert_desc_perm v l))).
      constructor; [|exact Hw].
      now apply (key_lt_asym laws).
    + assert (not_older v w) as Hvw.
      { intros H. apply key_ltb_lt in H. congruence. }
      constructor; [now constructor|].
      constructor; [exact Hvw|].
      eapply List.Forall_impl; [|exact Hw].
      intros x Hx. exact (not_older_trans _ _ _ Hvw Hx).
Qed.

Lemma sort_versions_sorted (versions : list string) :
  StronglySorted not_older (sort_versions versions).
Proof.
  induction versions as [|v l IH]; simpl; [constructor|].
  now apply insert_desc_sorted.
Qed.

Lemma StronglySorted_snoc {A} (R : A -> A -> Prop) (l : list A) (x : A) :
  StronglySorted R l -> Forall (fun y => R y x) l -> StronglySorted R (l ++ [x]).
Proof.
  induction 1 as [|y l Hs IH Hy]; intros Hx; simpl.
  - constructor; constructor.
  - inversion Hx; subst. constructor; [now apply IH|].
    apply List.Forall_app. split; [exact Hy|]. now constructor.
Qed.

Lemma StronglySorted_rev {A} (R : A -> A -> Prop) (l : list A) :
  StronglySorted R l -> StronglySorted (fun a b => R b a) (rev l).
Proof.
  induction 1 as [|y l Hs IH Hy]; simpl; [constructor|].
  apply StronglySorted_snoc; [exact IH|].
  apply List.Forall_forall. intros x Hx. apply in_rev in Hx.
  rewrite List.Forall_forall in Hy. now apply Hy.
Qed.


End Sorting.

(** ** The candidate list *)

Section Candidates.

Context {P : Packaging} (laws : PackagingLaws P).




Lemma filter_contains_malformed (spec : SpecifierSet) (vs : list string) :
  List.Exists (fun v => Version_parse v = None) vs ->
  filter_contains spec vs = Raise InvalidVersion.
Proof.
  induction vs as [|v vs IH]; intros H; [inversion H|].
  simpl. unfold contains.
  destruct (Version_parse v) as [p|] eqn:E; [|reflexivity]. simpl.
  rewrite IH; [reflexivity|]. inversion H; subst; [congruence|assumption].
Qed.

(** How [dfs] expands a target that passes the bounds, is not in
    [visited] and has versions: over the candidate list built by
    [base_candidates] and [prefer_planned]. *)
Lemma dfs_expands_candidates (fuel : nat) (kg : KGClient) (name : string)
    (spec : SpecifierSet) (tag : string) (queue_rest : list Target)
    (plan_state : gmap string PackageSelection)
    (visited : gset (string * string)) :
  size plan_state <= MAX_PACKAGES ->
  length ((name, spec, tag) :: queue_rest) <= MAX_QUEUE ->
  (name, spec_str spec) ∉ visited ->
  get_versions kg name <> [] ->
  dfs (S fuel) kg ((name, spec, tag) :: queue_rest) plan_state visited
  = let* base := base_candidates spec (get_versions kg name) in
    match base with
    | [] => Ret (false, plan_state, [msg_no_match name spec])
    | _ :: _ =>
        let* cands := prefer_planned spec plan_state name base in
        try_candidates
          (fun q p => dfs fuel kg q p (visited ∪ {[ (name, spec_str spec) ]}))
          kg name queue_rest plan_state cands
    end.
Proof.
  intros Hp Hq Hv Hn.
  cbn [dfs].
  destruct (Nat.ltb_spec MAX_PACKAGES (size plan_state)) as [H|_]; [lia|].
  match goal with
  | |- context [Nat.ltb MAX_QUEUE ?n] =>
      destruct (Nat.ltb_spec MAX_QUEUE n) as [H|_];
      [exfalso; exact (Nat.lt_irrefl _ (Nat.lt_le_trans _ _ _ H Hq))|]
  end.
  rewrite bool_decide_eq_false_2 by exact Hv.
  destruct (get_versions kg name) eqn:E; [congruence|].
  reflexivity.
Qed.


End Candidates.


(** ** Outcomes *)

Lemma bind_Ret_inv {A B} (m : outcome A) (k : A -> outcome B) (b : B) :
  bind m k = Ret b -> exists a, m = Ret a /\ k a = Ret b.
Proof. destruct m; simpl; intros H; try discriminate. eauto. Qed.

Ltac bind_inv H :=
  let a := fresh "a" in
  let Ha := fresh "Ha" in
  apply bind_Ret_inv in H; destruct H as (a & Ha & H).

(** ** The shape of a result *)

Section Shape.

Context {P : Packaging}.



End Shape.

(** ** The plan of a successful search *)

Section Soundness.

Context {P : Packaging}.

Lemma try_candidates_erasure
    (rec : list Target -> gmap string PackageSelection -> outcome dfs_result)
    (rec_t : list Target -> gmap string PackageSelection
             -> outcome (dfs_result * list Assignment))
    (kg : KGClient) (name : string) (spec : SpecifierSet)
    (queue_state : list Target)
    (plan_state : gmap string PackageSelection) (cands : list string) :
  (forall q p, rec q p = forget_trace (rec_t q p)) ->
  try_candidates rec kg name queue_state plan_state cands
  = forget_trace
      (try_candidates_traced rec_t kg name spec queue_state plan_state cands).
Proof.
  intros Hrec. induction cands as [|cand cands IH]; simpl; [reflexivity|].
  destruct (push_deps name (get_requires kg name cand) queue_state)
    as [q| |]; simpl; try reflexivity.
  rewrite Hrec.
  destruct (rec_t q _) as [[[[b p'] c] t]| |]; simpl; try reflexivity.
  destruct b; simpl; [reflexivity|exact IH].
Qed.

(** The traced search returns what the search returns. *)
Lemma dfs_traced_erasure (fuel : nat) (kg : KGClient)
    (queue_state : list Target) (plan_state : gmap string PackageSelection)
    (visited : gset (string * string)) :
  dfs fuel kg queue_state plan_state visited
  = forget_trace (dfs_traced fuel kg queue_state plan_state visited).
Proof.
  revert queue_state plan_state visited.
  induction fuel as [|fuel IH]; intros q p vis; [reflexivity|].
  cbn [dfs dfs_traced].
  destruct (Nat.ltb MAX_PACKAGES (size p)); [reflexivity|].
  destruct q as [|[[name spec] tag] rest]; [reflexivity|].
  destruct (Nat.ltb MAX_QUEUE _); [reflexivity|].
  destruct (bool_decide _); [apply IH|].
  destruct (get_versions kg name); [reflexivity|].
  destruct (base_candidates spec _) as [[|c cs]| |]; simpl; try reflexivity.
  destruct (prefer_planned spec p name _) as [cands| |]; simpl; try reflexivity.
  apply try_candidates_erasure. intros q' p'. apply IH.
Qed.

Lemma filter_contains_sound (spec : SpecifierSet) (vs l : list string) :
  filter_contains spec vs = Ret l ->
  List.Forall (fun v => contains spec v = Ret true) l.
Proof.
  revert l; induction vs as [|v vs IH]; simpl; intros l H.
  - injection H as <-. constructor.
  - bind_inv H. bind_inv H. injection H as <-.
    destruct a; [constructor|]; auto.
Qed.

Lemma base_candidates_sound (spec : SpecifierSet) (versions l : list string) :
  base_candidates spec versions = Ret l -> List.Forall (satisfies spec) l.
Proof.
  unfold base_candidates, satisfies. destruct (spec_is_empty spec) eqn:E.
  - intros _. apply List.Forall_forall. auto.
  - intros H. apply filter_contains_sound in H.
    eapply List.Forall_impl; [|exact H]. auto.
Qed.

Lemma prefer_planned_sound (spec : SpecifierSet)
    (p : gmap string PackageSelection) (name : string) (cands l : list string) :
  List.Forall (satisfies spec) cands ->
  prefer_planned spec p name cands = Ret l ->
  List.Forall (satisfies spec) l.
Proof.
  unfold prefer_planned. intros Hc H.
  destruct (p !! name) as [sel|]; [|now injection H as <-].
  bind_inv H. injection H as <-. destruct a; [|exact Hc].
  constructor; [now right|].
  rewrite List.Forall_forall in *. intros v Hv.
  apply filter_In in Hv. now apply Hc.
Qed.

Lemma try_candidates_traced_sound
    (rec_t : list Target -> gmap string PackageSelection
             -> outcome (dfs_result * list Assignment))
    (kg : KGClient) (name : string) (spec : SpecifierSet)
    (queue_state : list Target)
    (p : gmap string PackageSelection) (cands : list string)
    (p' : gmap string PackageSelection) (c : list string)
    (t : list Assignment) :
  (forall q p0 p1 c1 t1,
      rec_t q p0 = Ret ((true, p1, c1), t1) ->
      List.Forall (fun a => satisfies a.1.2 a.2) t1 /\
      plan_follows_trace p0 p1 t1) ->
  List.Forall (satisfies spec) cands ->
  try_candidates_traced rec_t kg name spec queue_state p cands
  = Ret ((true, p', c), t) ->
  List.Forall (fun a => satisfies a.1.2 a.2) t /\ plan_follows_trace p p' t.
Proof.
  intros Hrec. induction cands as [|cand cands IH]; simpl; intros Hc H;
    [discriminate|].
  inversion Hc as [|? ? Hcand Hcands]; subst.
  bind_inv H. bind_inv H.
  destruct a0 as [[[b p1] c1] t1]. simpl in H.
  destruct b; [|now apply IH].
  injection H as <- <- <-.
  destruct (Hrec _ _ _ _ _ Ha0) as [Hsat Hplan].
  split; [constructor; [exact Hcand|exact Hsat]|].
  intros n. specialize (Hplan n). simpl.
  destruct (last_assignment t1 n) as [[s v]|]; [exact Hplan|].
  destruct (String.eqb_spec name n) as [->|Hne].
  - rewrite Hplan, lookup_insert_eq. eauto.
  - now rewrite Hplan, lookup_insert_ne.
Qed.

Lemma dfs_traced_sound (fuel : nat) (kg : KGClient)
    (queue_state : list Target) (p : gmap string PackageSelection)
    (visited : gset (string * string))
    (p' : gmap string PackageSelection) (c : list string)
    (t : list Assignment) :
  dfs_traced fuel kg queue_state p visited = Ret ((true, p', c), t) ->
  List.Forall (fun a => satisfies a.1.2 a.2) t /\ plan_follows_trace p p' t.
Proof.
  revert queue_state p visited p' c t.
  induction fuel as [|fuel IH]; intros q p vis p' c t H; [discriminate|].
  cbn [dfs_traced] in H.
  destruct (Nat.ltb MAX_PACKAGES (size p)); [discriminate|].
  destruct q as [|[[name spec] tag] rest].
  { injection H as <- <- <-. split; [constructor|]. intros n. reflexivity. }
  destruct (Nat.ltb MAX_QUEUE _); [discriminate|].
  destruct (bool_decide _); [now apply IH in H|].
  destruct (get_versions kg name); [discriminate|].
  bind_inv H. destruct a as [|v0 vs]; [discriminate|].
  bind_inv H.
  eapply try_candidates_traced_sound; [| |exact H].
  - intros q' p0 p1 c1 t1 Hr. now apply IH in Hr.
  - eapply prefer_planned_sound; [|exact Ha0].
    eapply base_candidates_sound; exact Ha.
Qed.

(** X8. What a successful [resolve_plan] does guarantee: every assignment
    made on the successful branch satisfies the specifier of the target it
    was made for, and the returned plan holds for each assigned name the
    version of its last assignment, and every other name as the
    environment had it. *)
Theorem resolve_plan_last_target_satisfied (fuel : nat) (kg : KGClient)
    (current : OrderedDict.t string)
    (targets : list (string * string * string)) (res : ResolutionResult) :
  resolve_plan fuel kg current targets = Ret res ->
  ok res = true ->
  exists queue trace,
    initial_queue targets = Ret queue /\
    dfs_traced fuel kg queue (initial_plan current) ∅
    = Ret ((true, plan res, conflicts res), trace) /\
    List.Forall (fun a => satisfies a.1.2 a.2) trace /\
    (forall name spec v,
        last_assignment trace name = Some (spec, v) ->
        satisfies spec v /\
        exists sel, plan res !! name = Some sel /\ sel_version sel = v) /\
    (forall name,
        last_assignment trace name = None ->
        plan res !! name = initial_plan current !! name).
Proof.
  unfold resolve_plan. intros H Hok. bind_inv H. bind_inv H.
  injection H as <-. simpl in *.
  rewrite dfs_traced_erasure in Ha0. unfold forget_trace in Ha0.
  bind_inv Ha0. injection Ha0 as <-.
  destruct a1 as [[[b p'] c] t]. simpl in *. subst b.
  exists a, t. split; [exact Ha|]. split; [exact Ha1|].
  destruct (dfs_traced_sound _ _ _ _ _ _ _ _ Ha1) as [Hsat Hplan].
  split; [exact Hsat|]. split.
  - intros name spec v Hl. specialize (Hplan name). rewrite Hl in Hplan.
    split; [|exact Hplan].
    clear -Hsat Hl. induction t as [|[[n s] w] t IH]; [discriminate|].
    inversion Hsat; subst. simpl in Hl.
    destruct (last_assignment t name) as [x|].
    + apply IH; [assumption|congruence].
    + destruct (String.eqb n name); [|discriminate].
      injection Hl as <- <-. assumption.
  - intros name Hl. specialize (Hplan name). now rewrite Hl in Hplan.
Qed.

End Soundness.

(** C1, on the failing input: [a] requires [numpy>=1.24] and [b] requires
    [numpy<1.21]; the search succeeds with the version chosen for the
    second requirement, which the first rejects.  The same with two
    targets that name [numpy] themselves. *)
Theorem resolve_plan_violates_earlier_target :
  resolve_plan 8 conflict_kg [] [("a", "", "target"); ("b", "", "target")]
  = Ret (mkResult true
           (<[ "a" := mkSelection "a" "1.0" New ]>
              (<[ "b" := mkSelection "b" "1.0" New ]>
                 {[ "numpy" := mkSelection "numpy" "1.20.0" Upgrade ]}))
           [])
  /\ resolve_plan 8 demo_kg []
       [("numpy", ">=1.24", "target"); ("numpy", "<1.21", "target")]
     = Ret (mkResult true
              {[ "numpy" := mkSelection "numpy" "1.20.0" Upgrade ]} [])
  /\ exists spec,
       SpecifierSet_parse ">=1.24" = Some spec /\
       contains spec "1.20.0" = Ret false.
Proof.
  split; [vm_compute; reflexivity|].
  split; [vm_compute; reflexivity|].
  eexists. split; [vm_compute; reflexivity|]. reflexivity.
Qed.

Lemma resolve_plan_last_target_satisfied_witness :
  exists res,
    resolve_plan 8 demo_kg []
      [("numpy", ">=1.24", "target"); ("numpy", "<1.21", "target")] = Ret res /\
    ok res = true /\
    exists queue trace,
      initial_queue
        [("numpy", ">=1.24", "target"); ("numpy", "<1.21", "target")] = Ret queue /\
      dfs_traced 8 demo_kg queue (initial_plan []) ∅
      = Ret ((true, plan res, conflicts res), trace) /\
      List.Forall (fun a => satisfies a.1.2 a.2) trace /\
      (forall name spec v,
          last_assignment trace name = Some (spec, v) ->
          satisfies spec v /\
          exists sel, plan res !! name = Some sel /\ sel_version sel = v) /\
      (forall name,
          last_assignment trace name = None ->
          plan res !! name = initial_plan [] !! name).
Proof.
  exists (mkResult true {[ "numpy" := mkSelection "numpy" "1.20.0" Upgrade ]} []).
  assert (resolve_plan 8 demo_kg []
            [("numpy", ">=1.24", "target"); ("numpy", "<1.21", "target")]
          = Ret (mkResult true
                   {[ "numpy" := mkSelection "numpy" "1.20.0" Upgrade ]} []))
    as E by (vm_compute; reflexivity).
  split; [exact E|]. split; [reflexivity|].
  exact (resolve_plan_last_target_satisfied 8 demo_kg _ _ _ E eq_refl).
Defined.

(** ** Provenance *)

(** C3, as stated, fails: [numpy] enters the plan as new at 1.25.0; the
    second target confirms exactly that version, and the provenance
    written is [Upgrade], not [Existing]. *)
Lemma provenance_same_version_not_existing :
  classify_source {[ "numpy" := mkSelection "numpy" "1.25.0" New ]}
    "numpy" "1.25.0" = Upgrade
  /\ resolve_plan (P := release_only) 8 demo_kg []
       [("numpy", "", "target"); ("numpy", ">=1.25", "target")]
     = Ret (mkResult true
              {[ "numpy" := mkSelection "numpy" "1.25.0" Upgrade ]} []).
Proof. split; vm_compute; reflexivity. Qed.

(** C3 (amended): the candidate is written into the incoming plan with a
    provenance computed from that incoming plan: [Existing] if the name
    was there with provenance [Existing] and exactly this version, [New]
    if the name was absent, [Upgrade] if the name was there at another
    version. *)
Theorem provenance_from_incoming_plan {P : Packaging}
    (rec : list Target -> gmap string PackageSelection -> outcome dfs_result)
    (kg : KGClient) (name : string) (queue_state : list Target)
    (plan_state : gmap string PackageSelection)
    (cand : string) (cands : list string) :
  try_candidates rec kg name queue_state plan_state (cand :: cands)
  = (let* new_queue := push_deps name (get_requires kg name cand) queue_state in
     let* r :=
       rec new_queue
         (<[name := mkSelection name cand (classify_source plan_state name cand)]>
            plan_state) in
     if r.1.1 then Ret r
     else try_candidates rec kg name queue_state plan_state cands)
  /\ (plan_state !! name = None ->
      classify_source plan_state name cand = New)
  /\ (forall sel,
        plan_state !! name = Some sel ->
        sel_source sel = Existing -> sel_version sel = cand ->
        classify_source plan_state name cand = Existing)
  /\ (forall sel,
        plan_state !! name = Some sel ->
        sel_version sel <> cand ->
        classify_source plan_state name cand = Upgrade).
Proof.
  split; [reflexivity|]. unfold classify_source. repeat split.
  - now intros ->.
  - intros sel -> -> ->. simpl. now rewrite String.eqb_refl.
  - intros sel -> Hne. apply String.eqb_neq in Hne. rewrite Hne.
    now rewrite andb_false_r.
Qed.

(** ** Two runs the design document rules out *)

(** C2, on the failing input: the check-only task answers [ok] with
    [numpy] moved from the installed 1.20.0 to 1.24.0. *)
Theorem task1_check_single_returns_upgrade :
  task1_check_single 8 demo_kg [("numpy", "1.20.0")] [] "pandas" ""
  = Ret (mkResult true
           (<[ "numpy" := mkSelection "numpy" "1.24.0" Upgrade ]>
              {[ "pandas" := mkSelection "pandas" "2.0" New ]})
           []).
Proof. vm_compute. reflexivity. Qed.

(** C4, on the failing input: a string that is no version among the
    versions of a package makes the search raise [InvalidVersion] as soon
    as a non-empty specifier is tested against it, and so does such a
    string in the environment; a dependency edge whose specifier does not
    parse makes it raise [InvalidSpecifier]; [pick_min_satisfying] skips
    the string that is no version. *)
Theorem dfs_raises_on_malformed_version :
  resolve_plan 8 malformed_kg [] [("a", ">=1.0", "target")]
  = Raise InvalidVersion
  /\ resolve_plan 8 demo_kg [("numpy", "latest")] [("numpy", "", "target")]
     = Raise InvalidVersion
  /\ resolve_plan 8 malformed_edge_kg [] [("a", "", "target")]
     = Raise InvalidSpecifier
  /\ (exists spec,
        SpecifierSet_parse ">=1.0" = Some spec /\
        pick_min_satisfying (rows_versions malformed_kg "a") spec false
        = Some "1.0").
Proof.
  split; [vm_compute; reflexivity|].
  split; [vm_compute; reflexivity|].
  split; [vm_compute; reflexivity|].
  eexists. split; vm_compute; reflexivity.
Qed.

(** ** Determinism *)

Section Determinism.

Context {P : Packaging}.






(** A deeper call stack does not change what a search returns or
    raises. *)
Lemma try_candidates_budget
    (rec1 rec2 : list Target -> gmap string PackageSelection -> outcome dfs_result)
    (kg : KGClient) (name : string) (queue_state : list Target)
    (plan_state : gmap string PackageSelection) (cands : list string) :
  (forall q p, rec1 q p <> OutOfFuel -> rec2 q p = rec1 q p) ->
  try_candidates rec1 kg name queue_state plan_state cands <> OutOfFuel ->
  try_candidates rec2 kg name queue_state plan_state cands
  = try_candidates rec1 kg name queue_state plan_state cands.
Proof.
  intros Hrec. induction cands as [|cand cands IH]; simpl; [reflexivity|].
  destruct (push_deps _ _ _) as [q| |]; simpl; try reflexivity.
  destruct (rec1 q _) as [r| |] eqn:E; simpl; intros H.
  - rewrite Hrec, E by (rewrite E; discriminate). simpl.
    destruct (r.1.1); [reflexivity|now apply IH].
  - rewrite Hrec, E by (rewrite E; discriminate). reflexivity.
  - congruence.
Qed.

Lemma dfs_unfold (kg : KGClient) (fuel : nat) (queue_state : list Target)
    (plan_state : gmap string PackageSelection)
    (visited : gset (string * string)) :
  dfs (S fuel) kg queue_state plan_state visited
  = if Nat.ltb MAX_PACKAGES (size plan_state)
    then Ret (false, plan_state, [msg_too_many_packages])
    else
      match queue_state with
      | [] => Ret (true, plan_state, [])
      | (name, spec, tag) :: queue_rest =>
          if Nat.ltb MAX_QUEUE (length queue_state)
          then Ret (false, plan_state, [msg_queue_too_long])
          else
            if bool_decide ((name, spec_str spec) ∈ visited)
            then dfs fuel kg queue_rest plan_state visited
            else
              match get_versions kg name with
              | [] => Ret (false, plan_state, [msg_no_versions name])
              | _ :: _ =>
                  let* cands := base_candidates spec (get_versions kg name) in
                  match cands with
                  | [] => Ret (false, plan_state, [msg_no_match name spec])
                  | _ :: _ =>
                      let* cands := prefer_planned spec plan_state name cands in
                      try_candidates
                        (fun q p =>
                           dfs fuel kg q p (visited ∪ {[ (name, spec_str spec) ]}))
                        kg name queue_rest plan_state cands
                  end
              end
      end.
Proof.
  cbn [dfs]. destruct (Nat.ltb MAX_PACKAGES (size plan_state)); [reflexivity|].
  destruct queue_state as [|[[name spec] tag] rest]; [reflexivity|].
  destruct (Nat.ltb MAX_QUEUE _); [reflexivity|].
  destruct (bool_decide _); [reflexivity|].
  destruct (get_versions kg name); reflexivity.
Qed.

Lemma dfs_unfold_cons (kg : KGClient) (fuel : nat) (name : string)
    (spec : SpecifierSet) (tag : string) (queue_rest : list Target)
    (plan_state : gmap string PackageSelection)
    (visited : gset (string * string)) :
  dfs (S fuel) kg (((name, spec, tag) : Target) :: queue_rest) plan_state visited
  = if Nat.ltb MAX_PACKAGES (size plan_state)
    then Ret (false, plan_state, [msg_too_many_packages])
    else
      if Nat.ltb MAX_QUEUE (S (length queue_rest))
      then Ret (false, plan_state, [msg_queue_too_long])
      else
        if bool_decide ((name, spec_str spec) ∈ visited)
        then dfs fuel kg queue_rest plan_state visited
        else
          match get_versions kg name with
          | [] => Ret (false, plan_state, [msg_no_versions name])
          | _ :: _ =>
              let* cands := base_candidates spec (get_versions kg name) in
              match cands with
              | [] => Ret (false, plan_state, [msg_no_match name spec])
              | _ :: _ =>
                  let* cands := prefer_planned spec plan_state name cands in
                  try_candidates
                    (fun q p =>
                       dfs fuel kg q p (visited ∪ {[ (name, spec_str spec) ]}))
                    kg name queue_rest plan_state cands
              end
          end.
Proof. rewrite dfs_unfold. reflexivity. Qed.

Lemma dfs_budget_step (kg : KGClient) (fuel : nat) (queue_state : list Target)
    (plan_state : gmap string PackageSelection)
    (visited : gset (string * string)) :
  dfs fuel kg queue_state plan_state visited <> OutOfFuel ->
  dfs (S fuel) kg queue_state plan_state visited
  = dfs fuel kg queue_state plan_state visited.
Proof.
  revert queue_state plan_state visited.
  induction fuel as [|fuel IH]; intros q p vis H; [now contradiction H|].
  rewrite (dfs_unfold kg (S fuel) q p vis), (dfs_unfold kg fuel q p vis).
  rewrite (dfs_unfold kg fuel q p vis) in H.
  destruct (Nat.ltb MAX_PACKAGES (size p)); [reflexivity|].
  destruct q as [|[[name spec] tag] rest]; [reflexivity|].
  destruct (Nat.ltb MAX_QUEUE _); [reflexivity|].
  destruct (bool_decide _); [now apply IH|].
  destruct (get_versions kg name); [reflexivity|].
  destruct (base_candidates spec _) as [[|c cs]| |]; simpl in *; try reflexivity.
  destruct (prefer_planned spec p name _) as [cands| |]; simpl in *;
    try reflexivity.
  apply try_candidates_budget; [|exact H].
  intros q' p' Hq. now apply IH.
Qed.

Lemma dfs_budget (kg : KGClient) (fuel extra : nat) (queue_state : list Target)
    (plan_state : gmap string PackageSelection)
    (visited : gset (string * string)) :
  dfs fuel kg queue_state plan_state visited <> OutOfFuel ->
  dfs (extra + fuel) kg queue_state plan_state visited
  = dfs fuel kg queue_state plan_state visited.
Proof.
  intros H. induction extra as [|extra IH]; [reflexivity|].
  change (S extra + fuel) with (S (extra + fuel)).
  rewrite dfs_budget_step; [exact IH|]. now rewrite IH.
Qed.

Lemma resolve_plan_budget (kg : KGClient) (fuel1 fuel2 : nat)
    (current : OrderedDict.t string)
    (targets : list (string * string * string)) :
  resolve_plan fuel1 kg current targets <> OutOfFuel ->
  resolve_plan fuel2 kg current targets <> OutOfFuel ->
  resolve_plan fuel1 kg current targets = resolve_plan fuel2 kg current targets.
Proof.
  unfold resolve_plan.
  destruct (initial_queue targets) as [q| |]; simpl; try reflexivity.
  intros H1 H2.
  assert (dfs fuel1 kg q (initial_plan current) ∅ <> OutOfFuel) as D1.
  { intros E. now rewrite E in H1. }
  assert (dfs fuel2 kg q (initial_plan current) ∅ <> OutOfFuel) as D2.
  { intros E. now rewrite E in H2. }
  destruct (Nat.le_ge_cases fuel1 fuel2) as [Hle|Hle].
  - replace fuel2 with ((fuel2 - fuel1) + fuel1) by lia.
    now rewrite dfs_budget.
  - replace fuel1 with ((fuel1 - fuel2) + fuel2) by lia.
    now rewrite dfs_budget.
Qed.

End Determinism.

(** ** Requirement files *)

Section Requirements.

Context {P : Packaging}.

Lemma get_set_eq {V} (d : OrderedDict.t V) (k : string) (v : V) :
  OrderedDict.get (OrderedDict.set d k v) k = Some v.
Proof.
  induction d as [|[k' v'] d IH]; simpl.
  - now rewrite String.eqb_refl.
  - destruct (String.eqb k' k) eqn:E; simpl; rewrite E; [reflexivity|exact IH].
Qed.

Lemma get_set_ne {V} (d : OrderedDict.t V) (k k0 : string) (v : V) :
  k <> k0 ->
  OrderedDict.get (OrderedDict.set d k v) k0 = OrderedDict.get d k0.
Proof.
  intros Hne. induction d as [|[k' v'] d IH]; simpl.
  - apply String.eqb_neq in Hne. now rewrite Hne.
  - destruct (String.eqb k' k) eqn:E; simpl.
    + apply String.eqb_eq in E. subst k'.
      apply String.eqb_neq in Hne. now rewrite Hne.
    + now rewrite IH.
Qed.




(** One step of the loop of [parse_requirements], by what the line
    contributes. *)
Lemma parse_requirements_from_entry (d : OrderedDict.t string)
    (line : string) (rest : list string) (n s : string) :
  line_entry line = Some (n, s) ->
  parse_requirements_from d (line :: rest)
  = parse_requirements_from (OrderedDict.set d n s) rest.
Proof.
  intros H. cbn [parse_requirements_from].
  unfold line_entry in H. cbv zeta in H |- *.
  destruct (negb (PyStr.truthy (PyStr.strip line))
            || PyStr.startswith (PyStr.strip line) "#"); [discriminate H|].
  destruct (Requirement_parse (PyStr.strip line)) as [[rname rspec]|];
    [|discriminate H].
  now injection H as <- <-.
Qed.

Lemma parse_requirements_from_no_entry (d1 d2 : OrderedDict.t string)
    (line : string) (rest : list string) :
  line_entry line = None ->
  (parse_requirements_from d1 (line :: rest) = parse_requirements_from d1 rest /\
   parse_requirements_from d2 (line :: rest) = parse_requirements_from d2 rest) \/
  (parse_requirements_from d1 (line :: rest) = Raise InvalidRequirement /\
   parse_requirements_from d2 (line :: rest) = Raise InvalidRequirement).
Proof.
  intros H. cbn [parse_requirements_from].
  unfold line_entry in H. cbv zeta in H |- *.
  destruct (negb (PyStr.truthy (PyStr.strip line))
            || PyStr.startswith (PyStr.strip line) "#"); [now left|].
  destruct (Requirement_parse (PyStr.strip line)) as [[rname rspec]|];
    [discriminate H|now right].
Qed.


Lemma parse_requirements_from_app (d : OrderedDict.t string)
    (pre post : list string) :
  parse_requirements_from d (pre ++ post)
  = let* d' := parse_requirements_from d pre in parse_requirements_from d' post.
Proof.
  revert d. induction pre as [|line pre IH]; intros d; [reflexivity|].
  cbn [app parse_requirements_from]. cbv zeta.
  destruct (negb (PyStr.truthy (PyStr.strip line))
            || PyStr.startswith (PyStr.strip line) "#"); [apply IH|].
  destruct (Requirement_parse (PyStr.strip line)) as [[rname rspec]|];
    [apply IH|reflexivity].
Qed.

Lemma parse_requirements_from_last (lines : list string)
    (d m : OrderedDict.t string) (name : string) :
  parse_requirements_from d lines = Ret m ->
  OrderedDict.get m name
  = match last_entry lines name with
    | Some s => Some s
    | None => OrderedDict.get d name
    end.
Proof.
  revert d. induction lines as [|line lines IH]; intros d H.
  - simpl in *. now injection H as <-.
  - cbn [last_entry].
    destruct (line_entry line) as [[n s]|] eqn:E.
    + rewrite (parse_requirements_from_entry _ _ _ _ _ E) in H.
      rewrite (IH _ H).
      destruct (last_entry lines name); [reflexivity|].
      destruct (String.eqb_spec n name) as [->|Hne].
      * apply get_set_eq.
      * now apply get_set_ne.
    + destruct (parse_requirements_from_no_entry d d line lines E)
        as [[E1 _]|[E1 _]]; rewrite E1 in H; [|discriminate].
      rewrite (IH _ H). now destruct (last_entry lines name).
Qed.



End Requirements.


(** ** Termination of the search *)

Section Termination.

Context {P : Packaging}.

Lemma push_deps_app (name : string) (deps : list (string * string * string))
    (q : list Target) :
  push_deps name deps q
  = let* l := push_deps name deps [] in Ret (q ++ l).
Proof.
  revert q. induction deps as [|[[dep_name dep_spec] marker] deps IH]; intros q.
  - simpl. now rewrite app_nil_r.
  - cbn [push_deps].
    destruct (PyStr.truthy marker && PyStr.contains "extra ==" marker);
      [apply IH|].
    destruct (SpecifierSet_parse dep_spec) as [s|]; [|reflexivity].
    rewrite (IH (q ++ _)), (IH ([] ++ _)).
    destruct (push_deps name deps []) as [l| |]; simpl; [|reflexivity..].
    now rewrite <- app_assoc.
Qed.

Lemma elem_of_pending_keys (kg : KGClient) (q : list Target)
    (p : gmap string PackageSelection) (k : string * string) :
  k ∈ pending_keys kg q p <->
  (exists t, t ∈ q /\ k = target_key t) \/
  (exists b sel w,
      p !! b = Some sel /\
      (w = sel_version sel \/ w ∈ get_versions kg b) /\
      k ∈ deps_keys kg b w).
Proof.
  unfold pending_keys.
  rewrite elem_of_union, elem_of_list_to_set, list_elem_of_fmap, elem_of_union_list.
  split; intros [H|H]; [left|right|left|right].
  - destruct H as (t & -> & Ht). eauto.
  - destruct H as (X & HX & Hk).
    apply list_elem_of_fmap in HX as ([b sel] & -> & Hb).
    apply elem_of_map_to_list in Hb. cbn [fst snd] in Hk.
    apply elem_of_union_list in Hk as (Y & HY & Hk).
    apply list_elem_of_fmap in HY as (w & -> & Hw).
    exists b, sel, w. split; [exact Hb|]. split; [|exact Hk].
    apply elem_of_cons in Hw. exact Hw.
  - destruct H as (t & Ht & ->). eauto.
  - destruct H as (b & sel & w & Hb & Hw & Hk).
    exists (⋃ (deps_keys kg b <$> (sel_version sel :: get_versions kg b))).
    split.
    + apply list_elem_of_fmap. exists (b, sel). split; [reflexivity|].
      now apply elem_of_map_to_list.
    + apply elem_of_union_list. exists (deps_keys kg b w).
      split; [|exact Hk]. apply list_elem_of_fmap. exists w.
      split; [reflexivity|]. apply elem_of_cons. exact Hw.
Qed.

Lemma filter_contains_incl (spec : SpecifierSet) (vs l : list string) :
  filter_contains spec vs = Ret l -> forall v, In v l -> In v vs.
Proof.
  revert l; induction vs as [|x vs IH]; simpl; intros l H v Hv.
  - injection H as <-. exact Hv.
  - bind_inv H. bind_inv H. injection H as <-.
    destruct a; [destruct Hv as [->|Hv]|]; eauto.
Qed.

Lemma base_candidates_incl (spec : SpecifierSet) (versions l : list string) :
  base_candidates spec versions = Ret l -> forall v, In v l -> In v versions.
Proof.
  unfold base_candidates. intros H v Hv.
  apply (Permutation_in _ (sort_versions_perm versions)).
  destruct (spec_is_empty spec).
  - injection H as <-. exact Hv.
  - apply in_rev. eapply filter_contains_incl; eassumption.
Qed.

Lemma prefer_planned_incl (spec : SpecifierSet)
    (p : gmap string PackageSelection) (name : string) (cands l : list string) :
  prefer_planned spec p name cands = Ret l ->
  forall v, In v l ->
    In v cands \/ exists sel, p !! name = Some sel /\ v = sel_version sel.
Proof.
  unfold prefer_planned. intros H v Hv.
  destruct (p !! name) as [sel|]; [|injection H as <-; now left].
  bind_inv H. injection H as <-. destruct a; [|now left].
  destruct Hv as [<-|Hv]; [right; eauto|].
  apply filter_In in Hv. left. tauto.
Qed.

Lemma push_deps_returns_or_raises (name : string)
    (deps : list (string * string * string)) (q : list Target) :
  push_deps name deps q <> OutOfFuel.
Proof.
  revert q. induction deps as [|[[dep_name dep_spec] marker] deps IH]; intros q;
    cbn [push_deps]; [discriminate|].
  destruct (PyStr.truthy marker && PyStr.contains "extra ==" marker);
    [apply IH|].
  destruct (SpecifierSet_parse dep_spec); [apply IH|discriminate].
Qed.

Lemma contains_returns_or_raises (spec : SpecifierSet) (v : string) :
  contains spec v <> OutOfFuel.
Proof. unfold contains. destruct (Version_parse v); discriminate. Qed.

Lemma filter_contains_returns_or_raises (spec : SpecifierSet) (vs : list string) :
  filter_contains spec vs <> OutOfFuel.
Proof.
  induction vs as [|v vs IH]; simpl; [discriminate|].
  pose proof (contains_returns_or_raises spec v) as Hc.
  destruct (contains spec v); simpl; [|discriminate|congruence].
  destruct (filter_contains spec vs); simpl; [discriminate|discriminate|congruence].
Qed.

Lemma base_candidates_returns_or_raises (spec : SpecifierSet)
    (versions : list string) :
  base_candidates spec versions <> OutOfFuel.
Proof.
  unfold base_candidates. destruct (spec_is_empty spec); [discriminate|].
  apply filter_contains_returns_or_raises.
Qed.

Lemma prefer_planned_returns_or_raises (spec : SpecifierSet)
    (p : gmap string PackageSelection) (name : string) (cands : list string) :
  prefer_planned spec p name cands <> OutOfFuel.
Proof.
  unfold prefer_planned. destruct (p !! name) as [sel|]; [|discriminate].
  pose proof (contains_returns_or_raises spec (sel_version sel)) as Hc.
  destruct (contains spec (sel_version sel)); simpl;
    [discriminate|discriminate|congruence].
Qed.

Lemma terminates_from (kg : KGClient) (q : list Target)
    (p : gmap string PackageSelection) (vis : gset (string * string)) :
  terminates kg q p vis ->
  exists fuel, forall fuel', fuel <= fuel' -> dfs fuel' kg q p vis <> OutOfFuel.
Proof.
  intros [fuel H]. exists fuel. intros fuel' Hle.
  replace fuel' with ((fuel' - fuel) + fuel) by lia.
  now rewrite dfs_budget.
Qed.

Lemma try_candidates_terminates (kg : KGClient) (name : string)
    (rest : list Target) (p : gmap string PackageSelection)
    (vis : gset (string * string)) (cands : list string) :
  (forall cand q',
      In cand cands ->
      push_deps name (get_requires kg name cand) rest = Ret q' ->
      terminates kg q'
        (<[name := mkSelection name cand (classify_source p name cand)]> p) vis) ->
  exists fuel, forall fuel', fuel <= fuel' ->
    try_candidates (fun q p => dfs fuel' kg q p vis) kg name rest p cands
    <> OutOfFuel.
Proof.
  induction cands as [|cand cands IH]; intros Hc.
  - exists 0. intros fuel' _. discriminate.
  - destruct IH as [ft Ht]; [intros c q' Hin; apply Hc; now right|].
    destruct (push_deps name (get_requires kg name cand) rest) as [q'| |] eqn:E.
    + destruct (terminates_from _ _ _ _ (Hc cand q' (or_introl eq_refl) E))
        as [fh Hh].
      exists (max fh ft). intros fuel' Hle. cbn [try_candidates]. rewrite E.
      cbn [bind].
      specialize (Hh fuel' ltac:(lia)). specialize (Ht fuel' ltac:(lia)).
      destruct (dfs fuel' kg q' _ vis) as [r| |]; cbn [bind];
        [|discriminate|congruence].
      destruct (r.1.1); [discriminate|exact Ht].
    + exists 0. intros fuel' _. cbn [try_candidates]. rewrite E. discriminate.
    + now apply push_deps_returns_or_raises in E.
Qed.

(** Expanding a target whose name the plan already holds enqueues and
    plans nothing that was not pending. *)
Lemma pending_keys_expand (kg : KGClient) (name : string) (spec : SpecifierSet)
    (tag : string) (rest q' : list Target)
    (p : gmap string PackageSelection) (sel : PackageSelection)
    (cand : string) (src : Source) :
  p !! name = Some sel ->
  cand = sel_version sel \/ cand ∈ get_versions kg name ->
  push_deps name (get_requires kg name cand) rest = Ret q' ->
  pending_keys kg q' (<[name := mkSelection name cand src]> p)
  ⊆ pending_keys kg ((name, spec, tag) :: rest) p.
Proof.
  intros Hsel Hcand Hq k Hk.
  rewrite push_deps_app in Hq. bind_inv Hq. injection Hq as <-.
  apply elem_of_pending_keys in Hk. apply elem_of_pending_keys.
  destruct Hk as [(t & Ht & ->)|(b & sel' & w & Hb & Hw & Hk)].
  - apply elem_of_app in Ht as [Ht|Ht].
    + left. exists t. split; [now apply elem_of_cons; right|reflexivity].
    + right. exists name, sel, cand. split; [exact Hsel|]. split; [exact Hcand|].
      unfold deps_keys. rewrite Ha.
      apply elem_of_list_to_set, list_elem_of_fmap. eauto.
  - right. destruct (decide (name = b)) as [<-|Hne].
    + rewrite lookup_insert_eq in Hb. injection Hb as <-. simpl in Hw.
      exists name, sel, w. split; [exact Hsel|]. split; [|exact Hk].
      destruct Hw as [->|Hw]; [exact Hcand|now right].
    + rewrite lookup_insert_ne in Hb by exact Hne.
      exists b, sel', w. auto.
Qed.

Lemma pending_keys_skip (kg : KGClient) (t : Target) (rest : list Target)
    (p : gmap string PackageSelection) :
  pending_keys kg rest p ⊆ pending_keys kg (t :: rest) p.
Proof.
  intros k Hk. apply elem_of_pending_keys in Hk. apply elem_of_pending_keys.
  destruct Hk as [(t' & Ht & ->)|H]; [left|now right].
  exists t'. split; [now apply elem_of_cons; right|reflexivity].
Qed.

(** Every call of [dfs] ends.  The measure, in lexicographic order: the
    names the plan can still take before the bound on its size, the
    pending keys not yet visited, the length of the queue. *)
Lemma dfs_terminates_measure (kg : KGClient) (a b c : nat) :
  forall (q : list Target) (p : gmap string PackageSelection)
         (vis : gset (string * string)),
    S (S MAX_PACKAGES) - size p = a ->
    size (pending_keys kg q p ∖ vis) = b ->
    length q = c ->
    terminates kg q p vis.
Proof.
  revert b c. induction a as [a IHa] using lt_wf_ind.
  intros b. induction b as [b IHb] using lt_wf_ind.
  intros c. induction c as [c IHc] using lt_wf_ind.
  intros q p vis Ea Eb Ec.
  destruct (Nat.ltb MAX_PACKAGES (size p)) eqn:Hcap.
  { exists 1. rewrite dfs_unfold, Hcap. discriminate. }
  apply Nat.ltb_ge in Hcap as Hsize.
  destruct q as [|[[name spec] tag] rest].
  { exists 1. rewrite dfs_unfold, Hcap. discriminate. }
  destruct (Nat.ltb MAX_QUEUE (S (length rest))) eqn:Hq.
  { exists 1. rewrite dfs_unfold_cons, Hcap, Hq. discriminate. }
  destruct (bool_decide ((name, spec_str spec) ∈ vis)) eqn:Hvis.
  { assert (terminates kg rest p vis) as [f Hf].
    { pose proof (subseteq_size (pending_keys kg rest p ∖ vis)
                    (pending_keys kg (((name, spec, tag) : Target) :: rest) p ∖ vis)) as Hle.
      destruct (decide (size (pending_keys kg rest p ∖ vis) = b)) as [Heq|Hne].
      - eapply (IHc (length rest)); [|exact Ea|exact Heq|reflexivity].
        subst c. simpl. lia.
      - eapply (IHb (size (pending_keys kg rest p ∖ vis)));
          [|exact Ea|reflexivity|reflexivity].
        assert (pending_keys kg rest p ∖ vis
                ⊆ pending_keys kg (((name, spec, tag) : Target) :: rest) p ∖ vis) as Hsub.
        { intros k Hk. apply elem_of_difference in Hk as [Hk1 Hk2].
          apply elem_of_difference. split; [|exact Hk2].
          now apply pending_keys_skip. }
        specialize (Hle Hsub). lia. }
    exists (S f). rewrite dfs_unfold_cons, Hcap, Hq, Hvis. exact Hf. }
  apply bool_decide_eq_false in Hvis.
  destruct (get_versions kg name) as [|v0 vs] eqn:Hver.
  { exists 1. rewrite dfs_unfold_cons, Hcap, Hq, bool_decide_eq_false_2, Hver
      by exact Hvis. discriminate. }
  destruct (base_candidates spec (v0 :: vs)) as [[|c0 cs]| |] eqn:Hbase;
    [| | |now apply base_candidates_returns_or_raises in Hbase];
    try (exists 1; rewrite dfs_unfold_cons, Hcap, Hq, bool_decide_eq_false_2, Hver,
           Hbase by exact Hvis; discriminate).
  destruct (prefer_planned spec p name (c0 :: cs)) as [cands| |] eqn:Hpref;
    [| |now apply prefer_planned_returns_or_raises in Hpref];
    try (exists 1; rewrite dfs_unfold_cons, Hcap, Hq, bool_decide_eq_false_2, Hver,
           Hbase by exact Hvis; cbn [bind]; rewrite Hpref; discriminate).
  destruct (try_candidates_terminates kg name rest p
              (vis ∪ {[ (name, spec_str spec) ]}) cands) as [F HF].
  { intros cand q' Hin Hpush.
    destruct (p !! name) as [sel|] eqn:Hsel.
    - eapply (IHb (size (pending_keys kg q' _ ∖ (vis ∪ {[ (name, spec_str spec) ]}))));
        [|rewrite map_size_insert_Some by eauto; exact Ea|reflexivity|reflexivity].
      rewrite <- Eb. apply subset_size.
      assert (cand = sel_version sel \/ cand ∈ get_versions kg name) as Hcand.
      { destruct (prefer_planned_incl _ _ _ _ _ Hpref cand Hin)
          as [Hc|(sel' & Hs' & ->)].
        - right. rewrite Hver. apply list_elem_of_In.
          eapply base_candidates_incl; eassumption.
        - left. congruence. }
      pose proof (pending_keys_expand kg name spec tag rest q' p sel cand
                    (classify_source p name cand) Hsel Hcand Hpush) as Hsub.
      assert ((name, spec_str spec)
              ∈ pending_keys kg (((name, spec, tag) : Target) :: rest) p) as Hin_key.
      { apply elem_of_pending_keys. left. exists (name, spec, tag).
        split; [apply elem_of_cons; now left|reflexivity]. }
      split.
      + intros k Hk. apply elem_of_difference in Hk as [Hk1 Hk2].
        apply elem_of_difference. split; [now apply Hsub|].
        intros Hv. apply Hk2. apply elem_of_union. now left.
      + intros Hback.
        assert ((name, spec_str spec)
                ∈ pending_keys kg (((name, spec, tag) : Target) :: rest) p ∖ vis)
          as Hk by (apply elem_of_difference; split; assumption).
        apply Hback in Hk. apply elem_of_difference in Hk as [_ Hk].
        apply Hk. apply elem_of_union. right. now apply elem_of_singleton.
    - eapply (IHa (S (S MAX_PACKAGES) - size (<[name := _]> p)));
        [|reflexivity|reflexivity|reflexivity].
      rewrite map_size_insert_None by exact Hsel. lia. }
  exists (S F).
  rewrite dfs_unfold_cons, Hcap, Hq, bool_decide_eq_false_2, Hver, Hbase by exact Hvis.
  cbn [bind]. rewrite Hpref. cbn [bind]. apply HF. lia.
Qed.

(** The search ends on every input. *)
Lemma dfs_terminates (kg : KGClient) (q : list Target)
    (p : gmap string PackageSelection) (vis : gset (string * string)) :
  terminates kg q p vis.
Proof. eapply dfs_terminates_measure; reflexivity. Qed.


End Termination.

(** ** Exceptions of the search *)

Section Exceptions.

Context {P : Packaging}.

(** Whatever the implementation of [packaging]: expanding a target with
    a non-empty specifier raises [InvalidVersion] as soon as one of the
    known versions of the package does not parse. *)
Lemma dfs_raises_on_unparsable (fuel : nat) (kg : KGClient) (name : string)
    (spec : SpecifierSet) (tag : string) (queue_rest : list Target)
    (plan_state : gmap string PackageSelection)
    (visited : gset (string * string)) :
  size plan_state <= MAX_PACKAGES ->
  S (length queue_rest) <= MAX_QUEUE ->
  (name, spec_str spec) ∉ visited ->
  spec_is_empty spec = false ->
  List.Exists (fun v => Version_parse v = None) (rows_versions kg name) ->
  dfs (S fuel) kg (((name, spec, tag) : Target) :: queue_rest) plan_state visited
  = Raise InvalidVersion.
Proof.
  intros Hp Hq Hv He Hex.
  rewrite dfs_unfold_cons.
  rewrite (proj2 (Nat.ltb_ge _ _) Hp), (proj2 (Nat.ltb_ge _ _) Hq).
  rewrite bool_decide_eq_false_2 by exact Hv.
  assert (List.Exists (fun v => Version_parse v = None)
            (rev (sort_versions (get_versions kg name)))) as Hex'.
  { apply List.Exists_exists in Hex as (v & Hin & Hv0).
    apply List.Exists_exists. exists v. split; [|exact Hv0].
    apply in_rev. rewrite rev_involutive.
    apply (Permutation_in _ (Permutation_sym (sort_versions_perm _))).
    apply (Permutation_in _ (Permutation_sym (sort_versions_perm _))).
    exact Hin. }
  unfold base_candidates. rewrite He.
  rewrite (filter_contains_malformed spec _ Hex').
  destruct (get_versions kg name) eqn:E; [|reflexivity].
  simpl in Hex'. inversion Hex'.
Qed.

End Exceptions.

(** ** Every run ends *)

Section Tasks.

Context {P : Packaging}.








End Tasks.






(** * Further properties of the resolver *)

(** ** Induction over a successful search *)

Section SuccessInduction.

Context {P : Packaging} (kg : KGClient).

Variable Q :
  list Target -> gset (string * string) ->
  gmap string PackageSelection -> gmap string PackageSelection ->
  list Assignment -> Prop.

Hypothesis Q_done :
  forall vis p, size p <= MAX_PACKAGES -> Q [] vis p p [].

Hypothesis Q_skip :
  forall name spec tag rest vis p p' t,
    (name, spec_str spec) ∈ vis ->
    Q rest vis p p' t ->
    Q (((name, spec, tag) : Target) :: rest) vis p p' t.

Hypothesis Q_expand :
  forall name spec tag rest vis p p' t cand q',
    size p <= MAX_PACKAGES ->
    (name, spec_str spec) ∉ vis ->
    (In cand (rows_versions kg name) \/
     exists sel, p !! name = Some sel /\ cand = sel_version sel) ->
    satisfies spec cand ->
    push_deps name (get_requires kg name cand) rest = Ret q' ->
    Q q' (vis ∪ {[ (name, spec_str spec) ]})
      (<[name := mkSelection name cand (classify_source p name cand)]> p) p' t ->
    Q (((name, spec, tag) : Target) :: rest) vis p p' ((name, spec, cand) :: t).

Lemma try_candidates_traced_success_ind
    (rec_t : list Target -> gmap string PackageSelection
             -> outcome (dfs_result * list Assignment))
    (name : string) (spec : SpecifierSet) (tag : string) (rest : list Target)
    (vis : gset (string * string))
    (p : gmap string PackageSelection) (cands : list string)
    (p' : gmap string PackageSelection) (c : list string)
    (t : list Assignment) :
  (forall q p0 p1 c1 t1,
      rec_t q p0 = Ret ((true, p1, c1), t1) ->
      Q q (vis ∪ {[ (name, spec_str spec) ]}) p0 p1 t1) ->
  size p <= MAX_PACKAGES ->
  (name, spec_str spec) ∉ vis ->
  List.Forall
    (fun cand =>
       (In cand (rows_versions kg name) \/
        exists sel, p !! name = Some sel /\ cand = sel_version sel) /\
       satisfies spec cand) cands ->
  try_candidates_traced rec_t kg name spec rest p cands = Ret ((true, p', c), t) ->
  Q (((name, spec, tag) : Target) :: rest) vis p p' t.
Proof.
  intros Hrec Hsize Hvis. induction cands as [|cand cands IH]; intros Hc H;
    cbn [try_candidates_traced] in H; [discriminate|].
  inversion Hc as [|? ? [Hknown Hsat] Hcands]; subst.
  bind_inv H. bind_inv H.
  destruct a0 as [[[b p1] c1] t1]. cbn [fst snd] in H.
  destruct b; [|now apply IH].
  injection H as <- <- <-.
  eapply Q_expand; eauto.
Qed.

Lemma dfs_traced_success_ind (fuel : nat) (q : list Target)
    (p : gmap string PackageSelection) (vis : gset (string * string))
    (p' : gmap string PackageSelection) (c : list string)
    (t : list Assignment) :
  dfs_traced fuel kg q p vis = Ret ((true, p', c), t) -> Q q vis p p' t.
Proof.
  revert q p vis p' c t.
  induction fuel as [|fuel IH]; intros q p vis p' c t H; [discriminate|].
  cbn [dfs_traced] in H.
  destruct (Nat.ltb MAX_PACKAGES (size p)) eqn:Hcap; [discriminate|].
  apply Nat.ltb_ge in Hcap.
  destruct q as [|[[name spec] tag] rest].
  { injection H as <- <- <-. now apply Q_done. }
  destruct (Nat.ltb MAX_QUEUE _); [discriminate|].
  destruct (bool_decide _) eqn:Hvis.
  { apply bool_decide_eq_true in Hvis. apply Q_skip; [exact Hvis|].
    eapply IH; exact H. }
  apply bool_decide_eq_false in Hvis.
  destruct (get_versions kg name) as [|v0 vs] eqn:Hver; [discriminate|].
  bind_inv H. destruct a as [|c0 cs]; [discriminate|].
  bind_inv H.
  eapply try_candidates_traced_success_ind; [| | | |exact H]; try assumption.
  - intros q' p0 p1 c1 t1 Hr. eapply IH; exact Hr.
  - pose proof (prefer_planned_sound _ _ _ _ _
                  (base_candidates_sound _ _ _ Ha) Ha0) as Hsat.
    rewrite List.Forall_forall in Hsat |- *. intros cand Hin.
    split; [|now apply Hsat].
    destruct (prefer_planned_incl _ _ _ _ _ Ha0 cand Hin) as [Hb|Hs];
      [left|now right].
    apply (base_candidates_incl _ _ _ Ha) in Hb. rewrite <- Hver in Hb.
    unfold get_versions in Hb.
    now apply (Permutation_in _ (sort_versions_perm _)).
Qed.

End SuccessInduction.

(** ** What a result of [resolve_plan] holds *)

Section Results.

Context {P : Packaging}.

Lemma try_candidates_failure_plan
    (rec : list Target -> gmap string PackageSelection -> outcome dfs_result)
    (kg : KGClient) (name : string) (rest : list Target)
    (p : gmap string PackageSelection) (cands : list string)
    (p' : gmap string PackageSelection) (c : list string) :
  try_candidates rec kg name rest p cands = Ret (false, p', c) -> p' = p.
Proof.
  induction cands as [|cand cands IH]; cbn [try_candidates]; intros H.
  - now injection H as <- _.
  - bind_inv H. bind_inv H. destruct a0 as [[b p1] c1]. cbn [fst snd] in H.
    destruct b; [discriminate|now apply IH].
Qed.

Lemma dfs_failure_plan (fuel : nat) (kg : KGClient) (q : list Target)
    (p : gmap string PackageSelection) (vis : gset (string * string))
    (p' : gmap string PackageSelection) (c : list string) :
  dfs fuel kg q p vis = Ret (false, p', c) -> p' = p.
Proof.
  revert q p vis. induction fuel as [|fuel IH]; intros q p vis H; [discriminate|].
  rewrite dfs_unfold in H.
  destruct (Nat.ltb MAX_PACKAGES (size p)); [now injection H as <- _|].
  destruct q as [|[[name spec] tag] rest]; [discriminate|].
  destruct (Nat.ltb MAX_QUEUE _); [now injection H as <- _|].
  destruct (bool_decide _); [now apply IH in H|].
  destruct (get_versions kg name); [now injection H as <- _|].
  bind_inv H. destruct a; [now injection H as <- _|].
  bind_inv H. now apply try_candidates_failure_plan in H.
Qed.

Lemma resolve_plan_success_traced (fuel : nat) (kg : KGClient)
    (current : OrderedDict.t string)
    (targets : list (string * string * string)) (res : ResolutionResult) :
  resolve_plan fuel kg current targets = Ret res ->
  ok res = true ->
  exists queue trace,
    initial_queue targets = Ret queue /\
    dfs_traced fuel kg queue (initial_plan current) ∅
    = Ret ((true, plan res, conflicts res), trace).
Proof.
  unfold resolve_plan. intros H Hok. bind_inv H. bind_inv H.
  injection H as <-. cbn [ok plan conflicts] in *.
  rewrite dfs_traced_erasure in Ha0. unfold forget_trace in Ha0.
  bind_inv Ha0. injection Ha0 as <-.
  destruct a1 as [[[b p'] c] t]. cbn [fst snd] in *. subst b. eauto.
Qed.

Lemma initial_queue_names (targets : list (string * string * string))
    (queue : list Target) :
  initial_queue targets = Ret queue ->
  map (fun t : Target => t.1.1) queue
  = map (fun t : string * string * string => normalize_name t.1.1) targets.
Proof.
  revert queue. induction targets as [|[[n s] tag] targets IH]; intros queue H;
    cbn [initial_queue] in H.
  - injection H as <-. reflexivity.
  - destruct (SpecifierSet_parse _); [|discriminate].
    bind_inv H. injection H as <-. cbn. now rewrite (IH a Ha).
Qed.

Lemma initial_plan_fold (current : OrderedDict.t string)
    (m : gmap string PackageSelection) (n : string) (sel : PackageSelection) :
  fold_left
    (fun m '(k, v) =>
       <[normalize_name k := mkSelection (normalize_name k) v Existing]> m)
    current m !! n = Some sel ->
  m !! n = Some sel \/
  exists k v, In (k, v) current /\ normalize_name k = n /\
              sel = mkSelection n v Existing.
Proof.
  revert m. induction current as [|[k v] current IH]; intros m H; cbn in H.
  - now left.
  - apply IH in H as [H|(k' & v' & Hin & Hn & Hs)].
    + destruct (decide (normalize_name k = n)) as [<-|Hne].
      * rewrite lookup_insert_eq in H. injection H as <-.
        right. exists k, v. split; [now left|]. split; reflexivity.
      * rewrite lookup_insert_ne in H by exact Hne. now left.
    + right. exists k', v'. split; [now right|]. split; assumption.
Qed.

(** The plan [resolve_plan] starts from holds, under each normalised
    name, an entry of that name, with provenance [Existing] and the
    version of an item of the environment. *)
Lemma initial_plan_entry (current : OrderedDict.t string) (n : string)
    (sel : PackageSelection) :
  initial_plan current !! n = Some sel ->
  exists k v, In (k, v) current /\ normalize_name k = n /\
              sel = mkSelection n v Existing.
Proof.
  intros H. apply initial_plan_fold in H as [H|H]; [|exact H].
  now rewrite lookup_empty in H.
Qed.

(** X2. A failed [resolve_plan] returns the environment it started from
    as its plan: no tentative assignment of the search is left in it. *)
Theorem resolve_plan_failure_keeps_environment (fuel : nat) (kg : KGClient)
    (current : OrderedDict.t string)
    (targets : list (string * string * string)) (res : ResolutionResult) :
  resolve_plan fuel kg current targets = Ret res ->
  ok res = false ->
  plan res = initial_plan current.
Proof.
  unfold resolve_plan. intros H Hok. bind_inv H. bind_inv H.
  injection H as <-. cbn [ok plan] in *.
  destruct a0 as [[b p'] c]. cbn [fst snd] in *. subst b.
  now apply dfs_failure_plan in Ha0.
Qed.

(** X3. A successful [resolve_plan] returns a plan of at most
    [MAX_PACKAGES] packages. *)
Theorem resolve_plan_success_bounded (fuel : nat) (kg : KGClient)
    (current : OrderedDict.t string)
    (targets : list (string * string * string)) (res : ResolutionResult) :
  resolve_plan fuel kg current targets = Ret res ->
  ok res = true ->
  size (plan res) <= MAX_PACKAGES.
Proof.
  intros H Hok.
  destruct (resolve_plan_success_traced _ _ _ _ _ H Hok) as (q & t & _ & Hd).
  revert Hd.
  apply (dfs_traced_success_ind kg (fun _ _ _ p' _ => size p' <= MAX_PACKAGES));
    auto.
Qed.

(** X4. A successful [resolve_plan] drops no package and covers every
    target: each name of the environment and the normalised name of each
    target has an entry in the returned plan. *)
Theorem resolve_plan_success_covers (fuel : nat) (kg : KGClient)
    (current : OrderedDict.t string)
    (targets : list (string * string * string)) (res : ResolutionResult) :
  resolve_plan fuel kg current targets = Ret res ->
  ok res = true ->
  (forall n, is_Some (initial_plan current !! n) -> is_Some (plan res !! n)) /\
  (forall name spec tag,
      In (name, spec, tag) targets ->
      is_Some (plan res !! normalize_name name)).
Proof.
  intros H Hok.
  destruct (resolve_plan_success_traced _ _ _ _ _ H Hok) as (q & t & Hq & Hd).
  assert ((forall k, k ∈ (∅ : gset (string * string)) ->
             is_Some (initial_plan current !! k.1)) ->
          (forall n, is_Some (initial_plan current !! n) ->
             is_Some (plan res !! n)) /\
          (forall x : Target, In x q -> is_Some (plan res !! x.1.1))) as Hcov.
  { revert Hd.
    apply (dfs_traced_success_ind kg
             (fun q vis p p' _ =>
                (forall k, k ∈ vis -> is_Some (p !! k.1)) ->
                (forall n, is_Some (p !! n) -> is_Some (p' !! n)) /\
                (forall x : Target, In x q -> is_Some (p' !! x.1.1)))).
    - intros vis p _ _. split; [auto|]. intros x [].
    - intros name spec tag rest vis p p' t0 Hin IH Hvis.
      destruct (IH Hvis) as [Hdom Hrest]. split; [exact Hdom|].
      intros x [<-|Hx]; [|now apply Hrest].
      apply Hdom. exact (Hvis _ Hin).
    - intros name spec tag rest vis p p' t0 cand q' _ _ _ _ Hpush IH Hvis.
      destruct IH as [Hdom Hq'].
      { intros k Hk. apply elem_of_union in Hk as [Hk|Hk].
        - destruct (decide (name = k.1)) as [->|Hne].
          + rewrite lookup_insert_eq. eauto.
          + rewrite lookup_insert_ne by exact Hne. now apply Hvis.
        - apply elem_of_singleton in Hk. subst k. cbn.
          rewrite lookup_insert_eq. eauto. }
      assert (forall n, is_Some (p !! n) -> is_Some (p' !! n)) as Hdom'.
      { intros n Hn. apply Hdom.
        destruct (decide (name = n)) as [->|Hne].
        - rewrite lookup_insert_eq. eauto.
        - now rewrite lookup_insert_ne. }
      split; [exact Hdom'|].
      intros x [<-|Hx].
      + apply Hdom. cbn. rewrite lookup_insert_eq. eauto.
      + apply Hq'. rewrite push_deps_app in Hpush. bind_inv Hpush.
        injection Hpush as <-. apply in_or_app. now left. }
  destruct Hcov as [Hdom Htargets]; [intros k Hk; now apply elem_of_empty in Hk|].
  split; [exact Hdom|].
  intros name spec tag Hin.
  apply (in_map (fun t : string * string * string => normalize_name t.1.1))
    in Hin.
  rewrite <- (initial_queue_names _ _ Hq) in Hin.
  apply in_map_iff in Hin as (x & Hx & Hin).
  change (x.1.1 = normalize_name name) in Hx. rewrite <- Hx.
  now apply Htargets.
Qed.

(** X5. A successful [resolve_plan] invents no version: every entry of
    the returned plan is filed under its own name, and its version is
    either the one an item of the environment has for that name or one
    of the versions the graph lists for it. *)
Theorem resolve_plan_versions_known (fuel : nat) (kg : KGClient)
    (current : OrderedDict.t string)
    (targets : list (string * string * string)) (res : ResolutionResult) :
  resolve_plan fuel kg current targets = Ret res ->
  ok res = true ->
  forall n sel,
    plan res !! n = Some sel ->
    sel_name sel = n /\
    ((exists k, In (k, sel_version sel) current /\ normalize_name k = n) \/
     In (sel_version sel) (rows_versions kg n)).
Proof.
  intros H Hok.
  destruct (resolve_plan_success_traced _ _ _ _ _ H Hok) as (q & t & _ & Hd).
  assert (forall n sel',
             plan res !! n = Some sel' ->
             initial_plan current !! n = Some sel' \/
             (sel_name sel' = n /\
              (In (sel_version sel') (rows_versions kg n) \/
               exists sel, initial_plan current !! n = Some sel /\
                           sel_version sel = sel_version sel'))) as Hall.
  { revert Hd.
    apply (dfs_traced_success_ind kg
             (fun _ _ p p' _ =>
                forall n sel',
                  p' !! n = Some sel' ->
                  p !! n = Some sel' \/
                  (sel_name sel' = n /\
                   (In (sel_version sel') (rows_versions kg n) \/
                    exists sel, p !! n = Some sel /\
                                sel_version sel = sel_version sel')))).
    - intros vis p _ n sel' Hn. now left.
    - intros name spec tag rest vis p p' t0 _ IH. exact IH.
    - intros name spec tag rest vis p p' t0 cand q' _ _ Hknown _ _ IH n sel' Hn.
      assert (In cand (rows_versions kg name) \/
              exists sel, p !! name = Some sel /\ sel_version sel = cand)
        as Hknown'.
      { destruct Hknown as [Hr|(sel & Hs & ->)]; [now left|right; eauto]. }
      destruct (IH n sel' Hn) as [Hpi|(Hname & [Hrows|(sel & Hpi & Hv)])].
      + destruct (decide (name = n)) as [<-|Hne].
        * rewrite lookup_insert_eq in Hpi. injection Hpi as <-. cbn.
          right. split; [reflexivity|exact Hknown'].
        * rewrite lookup_insert_ne in Hpi by exact Hne. now left.
      + right. split; [exact Hname|now left].
      + right. split; [exact Hname|].
        destruct (decide (name = n)) as [<-|Hne].
        * rewrite lookup_insert_eq in Hpi. injection Hpi as <-. cbn in Hv.
          rewrite <- Hv. exact Hknown'.
        * rewrite lookup_insert_ne in Hpi by exact Hne. right. eauto. }
  intros n sel Hn.
  destruct (Hall n sel Hn) as [Hi|(Hname & [Hrows|(sel0 & Hi & Hv)])].
  - apply initial_plan_entry in Hi as (k & v & Hin & Hk & ->). cbn.
    split; [reflexivity|]. left. eauto.
  - split; [exact Hname|now right].
  - split; [exact Hname|]. left.
    apply initial_plan_entry in Hi as (k & v & Hin & Hk & ->). cbn in Hv.
    subst v. eauto.
Qed.

(** X6. What the provenance in a successful plan means: an entry marked
    [Existing] is the very entry the environment had, and an entry
    marked [New] is of a package the environment did not have. *)
Theorem resolve_plan_provenance_meaning (fuel : nat) (kg : KGClient)
    (current : OrderedDict.t string)
    (targets : list (string * string * string)) (res : ResolutionResult) :
  resolve_plan fuel kg current targets = Ret res ->
  ok res = true ->
  forall n sel,
    plan res !! n = Some sel ->
    (sel_source sel = Existing -> initial_plan current !! n = Some sel) /\
    (sel_source sel = New -> initial_plan current !! n = None).
Proof.
  intros H Hok.
  destruct (resolve_plan_success_traced _ _ _ _ _ H Hok) as (q & t & _ & Hd).
  assert (forall n sel',
             plan res !! n = Some sel' ->
             initial_plan current !! n = Some sel' \/
             ((sel_source sel' = Existing ->
               sel_name sel' = n /\
               exists sel, initial_plan current !! n = Some sel /\
                           sel_source sel = Existing /\
                           sel_version sel = sel_version sel') /\
              (sel_source sel' = New -> initial_plan current !! n = None)))
    as Hall.
  { revert Hd.
    apply (dfs_traced_success_ind kg
             (fun _ _ p p' _ =>
                forall n sel',
                  p' !! n = Some sel' ->
                  p !! n = Some sel' \/
                  ((sel_source sel' = Existing ->
                    sel_name sel' = n /\
                    exists sel, p !! n = Some sel /\
                                sel_source sel = Existing /\
                                sel_version sel = sel_version sel') /\
                   (sel_source sel' = New -> p !! n = None)))).
    - intros vis p _ n sel' Hn. now left.
    - intros name spec tag rest vis p p' t0 _ IH. exact IH.
    - intros name spec tag rest vis p p' t0 cand q' _ _ _ _ _ IH n sel' Hn.
      assert (classify_source p name cand = Existing ->
              exists sel, p !! name = Some sel /\ sel_source sel = Existing /\
                          sel_version sel = cand) as Hex.
      { unfold classify_source. destruct (p !! name) as [sel|]; [|discriminate].
        destruct (Source_eqb (sel_source sel) Existing) eqn:E1;
          [|discriminate].
        destruct (String.eqb_spec (sel_version sel) cand) as [E2|];
          [|discriminate].
        intros _. exists sel. split; [reflexivity|]. split; [|exact E2].
        now destruct (sel_source sel). }
      assert (classify_source p name cand = New -> p !! name = None) as Hnew.
      { unfold classify_source. destruct (p !! name) as [sel|]; [|reflexivity].
        destruct (_ && _); discriminate. }
      destruct (IH n sel' Hn) as [Hpi|[HE HN]].
      + destruct (decide (name = n)) as [<-|Hne].
        * rewrite lookup_insert_eq in Hpi. injection Hpi as <-. cbn.
          right. split; [intros E; split; [reflexivity|now apply Hex]|exact Hnew].
        * rewrite lookup_insert_ne in Hpi by exact Hne. now left.
      + right. split.
        * intros E. destruct (HE E) as (Hname & sel & Hpi & Hs & Hv).
          split; [exact Hname|].
          destruct (decide (name = n)) as [<-|Hne].
          -- rewrite lookup_insert_eq in Hpi. injection Hpi as <-.
             cbn in Hs, Hv. rewrite <- Hv. now apply Hex.
          -- rewrite lookup_insert_ne in Hpi by exact Hne. eauto.
        * intros E. specialize (HN E).
          destruct (decide (name = n)) as [<-|Hne].
          -- now rewrite lookup_insert_eq in HN.
          -- now rewrite lookup_insert_ne in HN. }
  intros n sel Hn.
  destruct (Hall n sel Hn) as [Hi|[HE HN]].
  - split; [intros _; exact Hi|].
    intros E. apply initial_plan_entry in Hi as (k & v & _ & _ & ->).
    discriminate E.
  - split; [|exact HN].
    intros E. destruct (HE E) as (Hname & sel0 & Hi & Hs & Hv).
    rewrite Hi. f_equal.
    apply initial_plan_entry in Hi as (k & v & _ & _ & ->).
    destruct sel as [sn sv ss]. cbn in *. congruence.
Qed.

(** X7. On the branch of a successful search no [(name, specifier)] pair
    is expanded twice: the keys of the assignments of the trace are
    pairwise distinct (a dependency cycle is cut when it comes back to a
    visited pair). *)
Theorem resolve_plan_expands_once (fuel : nat) (kg : KGClient)
    (current : OrderedDict.t string)
    (targets : list (string * string * string)) (res : ResolutionResult) :
  resolve_plan fuel kg current targets = Ret res ->
  ok res = true ->
  exists queue trace,
    initial_queue targets = Ret queue /\
    dfs_traced fuel kg queue (initial_plan current) ∅
    = Ret ((true, plan res, conflicts res), trace) /\
    List.NoDup (map assignment_key trace).
Proof.
  intros H Hok.
  destruct (resolve_plan_success_traced _ _ _ _ _ H Hok) as (q & t & Hq & Hd).
  exists q, t. split; [exact Hq|]. split; [exact Hd|].
  assert (List.NoDup (map assignment_key t) /\
          forall a, In a t -> assignment_key a ∉ (∅ : gset (string * string)))
    as [Hnd _]; [|exact Hnd].
  revert Hd.
  apply (dfs_traced_success_ind kg
           (fun _ vis _ _ t =>
              List.NoDup (map assignment_key t) /\
              forall a, In a t -> assignment_key a ∉ vis)).
  - intros vis p _. split; [constructor|]. intros a [].
  - intros name spec tag rest vis p p' t0 _ IH. exact IH.
  - intros name spec tag rest vis p p' t0 cand q' _ Hvis _ _ _ [Hnd Hfresh].
    split.
    + cbn [map]. constructor; [|exact Hnd].
      intros Hin. apply in_map_iff in Hin as (a & Ha & Hin).
      apply (Hfresh a Hin). apply elem_of_union. right.
      apply elem_of_singleton. exact Ha.
    + intros a [<-|Hin]; [exact Hvis|].
      intros Hv. apply (Hfresh a Hin). apply elem_of_union. now left.
Qed.

End Results.

Lemma demo_success_run :
  resolve_plan 8 demo_kg [("numpy", "1.20.0")] [("pandas", "", "target")]
  = Ret demo_success.
Proof. vm_compute. reflexivity. Qed.

Lemma demo_failure_run :
  resolve_plan 8 demo_kg [("numpy", "1.20.0")] [("scipy", ">=1.0", "target")]
  = Ret (mkResult false (initial_plan [("numpy", "1.20.0")])
           [msg_no_versions "scipy"]).
Proof. vm_compute. reflexivity. Qed.

Lemma resolve_plan_failure_keeps_environment_witness :
  resolve_plan 8 demo_kg [("numpy", "1.20.0")] [("scipy", ">=1.0", "target")]
  = Ret (mkResult false (initial_plan [("numpy", "1.20.0")])
           [msg_no_versions "scipy"]) /\
  plan (mkResult false (initial_plan [("numpy", "1.20.0")])
          [msg_no_versions "scipy"])
  = initial_plan [("numpy", "1.20.0")].
Proof.
  split; [exact demo_failure_run|].
  exact (resolve_plan_failure_keeps_environment _ _ _ _ _
           demo_failure_run eq_refl).
Defined.

Lemma resolve_plan_success_bounded_witness :
  resolve_plan 8 demo_kg [("numpy", "1.20.0")] [("pandas", "", "target")]
  = Ret demo_success /\
  ok demo_success = true /\
  size (plan demo_success) <= MAX_PACKAGES.
Proof.
  split; [exact demo_success_run|]. split; [reflexivity|].
  exact (resolve_plan_success_bounded _ _ _ _ _ demo_success_run eq_refl).
Defined.

Lemma resolve_plan_success_covers_witness :
  resolve_plan 8 demo_kg [("numpy", "1.20.0")] [("pandas", "", "target")]
  = Ret demo_success /\
  ok demo_success = true /\
  is_Some (plan demo_success !! normalize_name "pandas").
Proof.
  split; [exact demo_success_run|]. split; [reflexivity|].
  destruct (resolve_plan_success_covers _ _ _ _ _ demo_success_run eq_refl)
    as [_ Ht].
  apply (Ht "pandas" "" "target"). now left.
Defined.

Lemma resolve_plan_versions_known_witness :
  resolve_plan 8 demo_kg [("numpy", "1.20.0")] [("pandas", "", "target")]
  = Ret demo_success /\
  ok demo_success = true /\
  plan demo_success !! "numpy" = Some (mkSelection "numpy" "1.24.0" Upgrade) /\
  ((exists k, In (k, "1.24.0") [("numpy", "1.20.0")] /\ normalize_name k = "numpy")
   \/ In "1.24.0" (rows_versions demo_kg "numpy")).
Proof.
  split; [exact demo_success_run|]. split; [reflexivity|].
  assert (plan demo_success !! "numpy"
          = Some (mkSelection "numpy" "1.24.0" Upgrade)) as E
    by (vm_compute; reflexivity).
  split; [exact E|].
  exact (proj2 (resolve_plan_versions_known _ _ _ _ _ demo_success_run eq_refl
                  "numpy" _ E)).
Defined.

Lemma resolve_plan_provenance_meaning_witness :
  resolve_plan 8 demo_kg [("numpy", "1.20.0")] [("pandas", "", "target")]
  = Ret demo_success /\
  ok demo_success = true /\
  plan demo_success !! "pandas" = Some (mkSelection "pandas" "2.0" New) /\
  initial_plan [("numpy", "1.20.0")] !! "pandas" = None.
Proof.
  split; [exact demo_success_run|]. split; [reflexivity|].
  assert (plan demo_success !! "pandas"
          = Some (mkSelection "pandas" "2.0" New)) as E
    by (vm_compute; reflexivity).
  split; [exact E|].
  exact (proj2 (resolve_plan_provenance_meaning _ _ _ _ _ demo_success_run
                  eq_refl "pandas" _ E) eq_refl).
Defined.

Lemma resolve_plan_expands_once_witness :
  resolve_plan 8 demo_kg [("numpy", "1.20.0")] [("pandas", "", "target")]
  = Ret demo_success /\
  ok demo_success = true /\
  exists queue trace,
    initial_queue [("pandas", "", "target")] = Ret queue /\
    dfs_traced 8 demo_kg queue (initial_plan [("numpy", "1.20.0")]) ∅
    = Ret ((true, plan demo_success, conflicts demo_success), trace) /\
    List.NoDup (map assignment_key trace).
Proof.
  split; [exact demo_success_run|]. split; [reflexivity|].
  exact (resolve_plan_expands_once _ _ _ _ _ demo_success_run eq_refl).
Defined.

(** ** What the search does not depend on *)

Section Independence.

Context {P : Packaging}.

(** X1. The search ends on every input: whatever the queue, the plan and
    the visited set, from some depth of the call stack on [dfs] ends with
    one and the same outcome, a result or an exception (the bound on the
    plan size, the visited set and the shrinking queue leave no infinite
    branch). *)
Theorem dfs_always_ends (kg : KGClient) (queue_state : list Target)
    (plan_state : gmap string PackageSelection)
    (visited : gset (string * string)) :
  exists r fuel0,
    r <> OutOfFuel /\
    forall fuel, fuel0 <= fuel -> dfs fuel kg queue_state plan_state visited = r.
Proof.
  destruct (dfs_terminates kg queue_state plan_state visited) as [fuel0 H].
  exists (dfs fuel0 kg queue_state plan_state visited), fuel0.
  split; [exact H|]. intros fuel Hle.
  replace fuel with ((fuel - fuel0) + fuel0) by lia.
  now apply dfs_budget.
Qed.

Lemma push_deps_same_targets (name : string)
    (deps : list (string * string * string)) (q1 q2 : list Target) :
  same_targets q1 q2 ->
  match push_deps name deps q1, push_deps name deps q2 with
  | Ret q1', Ret q2' => same_targets q1' q2'
  | Raise e1, Raise e2 => e1 = e2
  | OutOfFuel, OutOfFuel => True
  | _, _ => False
  end.
Proof.
  intros Hq. rewrite (push_deps_app name deps q1), (push_deps_app name deps q2).
  destruct (push_deps name deps []) as [l| |]; cbn [bind]; auto.
  apply Forall2_app; [exact Hq|]. apply Forall_Forall2_diag.
  apply List.Forall_forall. auto.
Qed.

Lemma try_candidates_same_targets
    (rec1 rec2 : list Target -> gmap string PackageSelection -> outcome dfs_result)
    (kg : KGClient) (name : string) (q1 q2 : list Target)
    (p : gmap string PackageSelection) (cands : list string) :
  (forall a b p0, same_targets a b -> rec1 a p0 = rec2 b p0) ->
  same_targets q1 q2 ->
  try_candidates rec1 kg name q1 p cands = try_candidates rec2 kg name q2 p cands.
Proof.
  intros Hrec Hq. induction cands as [|cand cands IH];
    cbn [try_candidates]; [reflexivity|].
  pose proof (push_deps_same_targets name (get_requires kg name cand) q1 q2 Hq)
    as Hp.
  destruct (push_deps name (get_requires kg name cand) q1) as [q1'| |],
           (push_deps name (get_requires kg name cand) q2) as [q2'| |];
    cbn [bind]; try contradiction; try congruence.
  rewrite (Hrec q1' q2' _ Hp).
  destruct (rec2 q2' _) as [r| |]; cbn [bind]; try reflexivity.
  destruct (r.1.1); [reflexivity|exact IH].
Qed.

Lemma dfs_same_targets (fuel : nat) (kg : KGClient) (q1 q2 : list Target)
    (p : gmap string PackageSelection) (vis : gset (string * string)) :
  same_targets q1 q2 -> dfs fuel kg q1 p vis = dfs fuel kg q2 p vis.
Proof.
  revert q1 q2 p vis. induction fuel as [|fuel IH]; intros q1 q2 p vis Hq;
    [reflexivity|].
  rewrite !dfs_unfold.
  destruct (Nat.ltb MAX_PACKAGES (size p)); [reflexivity|].
  pose proof (Forall2_length _ _ _ Hq) as Hlen.
  destruct Hq as [|[[n1 s1] t1] [[n2 s2] t2] r1 r2 Hhd Hq]; [reflexivity|].
  cbn [fst] in Hhd. injection Hhd as -> ->.
  rewrite Hlen.
  destruct (Nat.ltb MAX_QUEUE _); [reflexivity|].
  destruct (bool_decide _); [now apply IH|].
  destruct (get_versions kg n2); [reflexivity|].
  destruct (base_candidates s2 _) as [[|c0 cs]| |]; cbn [bind]; try reflexivity.
  destruct (prefer_planned s2 p n2 _) as [cands| |]; cbn [bind];
    try reflexivity.
  apply try_candidates_same_targets; [|exact Hq].
  intros a b p0 Hab. now apply IH.
Qed.

(** X9. The tags of the targets are for diagnostics only: two target
    lists with the same names and specifier strings, tagged differently,
    make [resolve_plan] end alike. *)
Theorem resolve_plan_ignores_tags (fuel : nat) (kg : KGClient)
    (current : OrderedDict.t string)
    (targets1 targets2 : list (string * string * string)) :
  Forall2 (fun a b : string * string * string => a.1 = b.1) targets1 targets2 ->
  resolve_plan fuel kg current targets1 = resolve_plan fuel kg current targets2.
Proof.
  intros Ht. unfold resolve_plan.
  assert (match initial_queue targets1, initial_queue targets2 with
          | Ret q1, Ret q2 => same_targets q1 q2
          | Raise e1, Raise e2 => e1 = e2
          | OutOfFuel, OutOfFuel => True
          | _, _ => False
          end) as Hq.
  { induction Ht as [|[[n1 s1] t1] [[n2 s2] t2] r1 r2 Hhd _ IH];
      cbn [initial_queue bind]; [constructor|].
    cbn [fst] in Hhd. injection Hhd as -> ->.
    destruct (SpecifierSet_parse _); [|reflexivity].
    destruct (initial_queue r1), (initial_queue r2); cbn [bind];
      try contradiction; try congruence.
    constructor; [reflexivity|exact IH]. }
  destruct (initial_queue targets1) as [q1| |],
           (initial_queue targets2) as [q2| |];
    cbn [bind]; try contradiction; try congruence.
  now rewrite (dfs_same_targets fuel kg q1 q2).
Qed.

Lemma push_deps_drop_extras (kg : KGClient) (name cand : string)
    (q : list Target) :
  push_deps name (get_requires (drop_extras kg) name cand) q
  = push_deps name (get_requires kg name cand) q.
Proof.
  unfold get_requires, drop_extras. cbn [rows_requires].
  generalize (rows_requires kg (name +:+ "@" +:+ cand)). intros rows.
  revert q. induction rows as [|[[dep spec] marker] rows IH]; intros q;
    [reflexivity|].
  cbn [List.filter map]. unfold is_extra_row at 1. cbn [snd].
  destruct (PyStr.truthy (or_empty marker)
            && PyStr.contains "extra ==" (or_empty marker)) eqn:E;
    cbn [negb map push_deps]; rewrite E; [apply IH|].
  destruct (SpecifierSet_parse (or_empty spec)); [apply IH|reflexivity].
Qed.

Lemma try_candidates_drop_extras
    (rec1 rec2 : list Target -> gmap string PackageSelection -> outcome dfs_result)
    (kg : KGClient) (name : string) (q : list Target)
    (p : gmap string PackageSelection) (cands : list string) :
  (forall a p0, rec1 a p0 = rec2 a p0) ->
  try_candidates rec1 (drop_extras kg) name q p cands
  = try_candidates rec2 kg name q p cands.
Proof.
  intros Hrec. induction cands as [|cand cands IH];
    cbn [try_candidates]; [reflexivity|].
  rewrite push_deps_drop_extras.
  destruct (push_deps name (get_requires kg name cand) q) as [q'| |];
    cbn [bind]; try reflexivity.
  rewrite Hrec. destruct (rec2 q' _) as [r| |]; cbn [bind]; try reflexivity.
  destruct (r.1.1); [reflexivity|exact IH].
Qed.

Lemma dfs_drop_extras (fuel : nat) (kg : KGClient) (q : list Target)
    (p : gmap string PackageSelection) (vis : gset (string * string)) :
  dfs fuel (drop_extras kg) q p vis = dfs fuel kg q p vis.
Proof.
  revert q p vis. induction fuel as [|fuel IH]; intros q p vis; [reflexivity|].
  rewrite !dfs_unfold.
  change (get_versions (drop_extras kg)) with (get_versions kg).
  destruct (Nat.ltb MAX_PACKAGES (size p)); [reflexivity|].
  destruct q as [|[[name spec] tag] rest]; [reflexivity|].
  destruct (Nat.ltb MAX_QUEUE _); [reflexivity|].
  destruct (bool_decide _); [apply IH|].
  destruct (get_versions kg name); [reflexivity|].
  destruct (base_candidates spec _) as [[|c0 cs]| |]; cbn [bind]; try reflexivity.
  destruct (prefer_planned spec p name _) as [cands| |]; cbn [bind];
    try reflexivity.
  apply try_candidates_drop_extras. intros a p0. apply IH.
Qed.

(** X10. Edges scoped to an extra take no part in the resolution:
    [resolve_plan] ends alike on the graph and on the graph without the
    edges whose marker holds [extra ==], even where such an edge carries
    a specifier that does not parse. *)
Theorem resolve_plan_ignores_extras (fuel : nat) (kg : KGClient)
    (current : OrderedDict.t string)
    (targets : list (string * string * string)) :
  resolve_plan fuel (drop_extras kg) current targets
  = resolve_plan fuel kg current targets.
Proof.
  unfold resolve_plan.
  destruct (initial_queue targets); cbn [bind]; try reflexivity.
  now rewrite dfs_drop_extras.
Qed.

End Independence.

Lemma resolve_plan_ignores_tags_witness :
  Forall2 (fun a b : string * string * string => a.1 = b.1)
    [("pandas", "", "target")] [("pandas", "", "req")] /\
  resolve_plan 8 demo_kg [("numpy", "1.20.0")] [("pandas", "", "target")]
  = resolve_plan 8 demo_kg [("numpy", "1.20.0")] [("pandas", "", "req")].
Proof.
  assert (Forall2 (fun a b : string * string * string => a.1 = b.1)
            [("pandas", "", "target")] [("pandas", "", "req")]) as H
    by (constructor; [reflexivity|constructor]).
  split; [exact H|].
  exact (resolve_plan_ignores_tags 8 demo_kg [("numpy", "1.20.0")] _ _ H).
Defined.

Example extras_edge_ignored :
  resolve_plan 8 extras_kg [] [("pandas", "", "target")]
  = Ret (mkResult true
           (<[ "numpy" := mkSelection "numpy" "1.24.0" New ]>
              {[ "pandas" := mkSelection "pandas" "2.0" New ]})
           []).
Proof. vm_compute. reflexivity. Qed.

(** ** [sort_versions] and [pick_min_satisfying] *)

Section Picking.

Context {P : Packaging} (laws : PackagingLaws P).

Lemma sort_versions_of_sorted (l : list string) :
  StronglySorted not_older l -> sort_versions l = l.
Proof.
  induction 1 as [|v l Hs IH Hv]; [reflexivity|].
  cbn [sort_versions foldr]. fold (sort_versions l). rewrite IH.
  destruct l as [|w l']; [reflexivity|]. cbn [insert_desc].
  inversion Hv as [|? ? Hvw _]; subst.
  destruct (key_ltb (key v) (key w)) eqn:E; [|reflexivity].
  apply key_ltb_lt in E. now contradiction Hvw.
Qed.

Lemma insert_desc_has_key (k : sort_key) (v : string) (l : list string) :
  List.filter (has_key k) (insert_desc v l) = List.filter (has_key k) (v :: l).
Proof.
  induction l as [|w l IH]; [reflexivity|]. cbn [insert_desc].
  destruct (key_ltb (key v) (key w)) eqn:E; [|reflexivity].
  apply key_ltb_lt in E.
  cbn [List.filter] in *. rewrite IH.
  destruct (has_key k v) eqn:Hv; [|reflexivity].
  destruct (has_key k w) eqn:Hw; [|reflexivity].
  exfalso. unfold has_key in Hv, Hw.
  destruct (key_compare k (key v)) eqn:Ev; try discriminate.
  destruct (key_compare k (key w)) eqn:Ew; try discriminate.
  apply (key_compare_eq laws) in Ev, Ew. rewrite <- Ev, <- Ew in E.
  exact (key_lt_irrefl laws _ E).
Qed.

(** X11. [sort_versions] returns the versions it was given, each as
    often as it came, newest first; versions with the same key (such as
    two spellings of one version) keep the order they came in; and
    sorting a sorted list changes nothing, so the second sort that [dfs]
    applies to the answer of [get_versions] is harmless. *)
Theorem sort_versions_stable_sort (versions : list string) :
  Permutation (sort_versions versions) versions /\
  StronglySorted not_older (sort_versions versions) /\
  (forall k, List.filter (has_key k) (sort_versions versions)
             = List.filter (has_key k) versions) /\
  sort_versions (sort_versions versions) = sort_versions versions.
Proof.
  split; [apply sort_versions_perm|].
  split; [now apply sort_versions_sorted|]. split.
  - intros k. induction versions as [|v l IH]; [reflexivity|].
    cbn [sort_versions foldr]. fold (sort_versions l).
    rewrite insert_desc_has_key. cbn [List.filter]. now rewrite IH.
  - apply sort_versions_of_sorted. now apply sort_versions_sorted.
Qed.

Lemma find_pointwise {A} (f g : A -> bool) (l : list A) :
  (forall x, f x = g x) -> List.find f l = List.find g l.
Proof.
  intros H. induction l as [|y l IH]; cbn [List.find]; [reflexivity|].
  now rewrite H, IH.
Qed.

Lemma find_first {A} (f : A -> bool) (l : list A) (x : A) :
  List.find f l = Some x ->
  exists l1 l2, l = l1 ++ x :: l2 /\ f x = true /\
                List.Forall (fun y => f y = false) l1.
Proof.
  induction l as [|y l IH]; cbn [List.find]; [discriminate|].
  destruct (f y) eqn:E.
  - intros [= ->]. exists [], l. split; [reflexivity|]. split; [exact E|constructor].
  - intros H. destruct (IH H) as (l1 & l2 & -> & Hx & Hl1).
    exists (y :: l1), l2. split; [reflexivity|]. split; [exact Hx|].
    now constructor.
Qed.

Lemma StronglySorted_app_inv_r {A} (R : A -> A -> Prop) (l1 : list A) (x : A)
    (l2 : list A) :
  StronglySorted R (l1 ++ x :: l2) -> List.Forall (R x) l2.
Proof.
  induction l1 as [|y l1 IH]; cbn [app]; intros H; inversion H; subst; auto.
Qed.

Lemma acceptable_find (spec : SpecifierSet) (v : string) :
  (Nat.eqb (spec_len spec) 0
   || match contains spec v with Ret b => b | _ => false end)
  = acceptable spec v.
Proof.
  unfold acceptable, contains, allowed. now destruct (Version_parse v).
Qed.

(** X13. [pick_min_satisfying] never raises.  Without the preference for
    the latest (or with a non-empty specifier) it returns the oldest
    version that the specifier accepts, a version that does not parse
    counting as refused, and [None] exactly when no version is accepted;
    with the preference and an empty specifier it returns the newest
    version, and [None] exactly for an empty list. *)
Theorem pick_min_satisfying_spec (versions : list string) (spec : SpecifierSet) :
  (forall prefer v,
      prefer && spec_is_empty spec = false ->
      pick_min_satisfying versions spec prefer = Some v ->
      In v versions /\ acceptable spec v = true /\
      forall w, In w versions -> acceptable spec w = true -> not_newer v w) /\
  (forall prefer,
      prefer && spec_is_empty spec = false ->
      (pick_min_satisfying versions spec prefer = None <->
       forall w, In w versions -> acceptable spec w = false)) /\
  (forall v,
      spec_is_empty spec = true ->
      pick_min_satisfying versions spec true = Some v ->
      In v versions /\ forall w, In w versions -> not_older v w) /\
  (spec_is_empty spec = true ->
   (pick_min_satisfying versions spec true = None <-> versions = [])).
Proof.
  assert (forall w, In w (rev (sort_versions versions)) <-> In w versions)
    as Hin.
  { intros w. rewrite <- in_rev. split; intros H.
    - now apply (Permutation_in _ (sort_versions_perm versions)).
    - now apply (Permutation_in _ (Permutation_sym (sort_versions_perm versions))). }
  assert (StronglySorted not_newer (rev (sort_versions versions))) as Hsorted.
  { apply (StronglySorted_rev not_older). now apply sort_versions_sorted. }
  repeat apply conj.
  - intros prefer v Hp. unfold pick_min_satisfying. rewrite Hp.
    rewrite (find_pointwise _ (acceptable spec)) by (intros; apply acceptable_find).
    intros H. apply find_first in H as (l1 & l2 & E & Hv & Hl1).
    split; [apply Hin; rewrite E; apply in_elt|]. split; [exact Hv|].
    intros w Hw Hacc. apply Hin in Hw. rewrite E in Hw, Hsorted.
    apply in_app_or in Hw as [Hw|[<-|Hw]].
    + rewrite List.Forall_forall in Hl1. rewrite (Hl1 w Hw) in Hacc.
      discriminate.
    + apply (key_lt_irrefl laws).
    + apply StronglySorted_app_inv_r in Hsorted.
      rewrite List.Forall_forall in Hsorted. now apply Hsorted.
  - intros prefer Hp. unfold pick_min_satisfying. rewrite Hp.
    rewrite (find_pointwise _ (acceptable spec)) by (intros; apply acceptable_find).
    split.
    + intros H w Hw. apply Hin in Hw.
      exact (find_none _ _ H w Hw).
    + intros H. destruct (List.find _ _) as [v|] eqn:E; [|reflexivity].
      apply find_some in E as [Hv Ha]. apply Hin in Hv.
      rewrite (H v Hv) in Ha. discriminate.
  - intros v He. unfold pick_min_satisfying. rewrite He. cbn [andb].
    pose proof (sort_versions_sorted laws versions) as Hs.
    pose proof (sort_versions_perm versions) as Hperm.
    destruct (sort_versions versions) as [|x l]; [discriminate|].
    intros [= ->]. split.
    + apply (Permutation_in _ Hperm). now left.
    + intros w Hw. apply (Permutation_in _ (Permutation_sym Hperm)) in Hw.
      destruct Hw as [<-|Hw]; [apply (key_lt_irrefl laws)|].
      inversion Hs as [|? ? _ Hx]; subst.
      rewrite List.Forall_forall in Hx. now apply Hx.
  - intros He. unfold pick_min_satisfying. rewrite He. cbn [andb].
    pose proof (sort_versions_perm versions) as Hperm.
    destruct (sort_versions versions) as [|x l].
    + apply Permutation_nil in Hperm. subst. split; reflexivity.
    + split; [discriminate|]. intros ->.
      apply Permutation_sym, Permutation_nil in Hperm. discriminate.
Qed.

End Picking.

Section MalformedFirst.

Context {P : Packaging}.

Lemma insert_desc_malformed_first (v : string) (ms ws : list string) :
  List.Forall (fun x => Version_parse x = None) ms ->
  List.Forall (fun x => Version_parse x <> None) ws ->
  exists ms' ws',
    insert_desc v (ms ++ ws) = ms' ++ ws' /\
    List.Forall (fun x => Version_parse x = None) ms' /\
    List.Forall (fun x => Version_parse x <> None) ws'.
Proof.
  intros Hms Hws. induction Hms as [|m ms Hm Hms IH].
  - cbn [app]. destruct (Version_parse v) as [pv|] eqn:Ev.
    + exists [], (insert_desc v ws). split; [reflexivity|].
      split; [constructor|].
      apply (Permutation_Forall (Permutation_sym (insert_desc_perm v ws))).
      constructor; [congruence|exact Hws].
    + exists [v], ws. split; [|split; [now repeat constructor|exact Hws]].
      destruct ws as [|w ws']; [reflexivity|]. cbn [insert_desc].
      inversion Hws as [|? ? Hw _]; subst.
      unfold key_ltb, key. rewrite Ev.
      destruct (Version_parse w); [reflexivity|congruence].
  - cbn [app insert_desc].
    destruct (key_ltb (key v) (key m)) eqn:E.
    + destruct IH as (ms' & ws' & -> & H1 & H2).
      exists (m :: ms'), ws'. split; [reflexivity|].
      split; [now constructor|exact H2].
    + exists (v :: m :: ms), ws. split; [reflexivity|].
      split; [|exact Hws]. constructor; [|now constructor].
      unfold key_ltb, key in E. rewrite Hm in E.
      destruct (Version_parse v); [discriminate|reflexivity].
Qed.

(** X12. In the answer of [sort_versions] every string that is no
    version comes before every version: such a string counts as newest.
    So when the graph lists a string that is no version for a package,
    the first candidate for a target with an empty specifier is a string
    that is no version. *)
Theorem sort_versions_malformed_first (versions : list string) :
  (exists ms ws,
      sort_versions versions = ms ++ ws /\
      List.Forall (fun x => Version_parse x = None) ms /\
      List.Forall (fun x => Version_parse x <> None) ws) /\
  (forall spec,
      spec_is_empty spec = true ->
      List.Exists (fun x => Version_parse x = None) versions ->
      exists first others,
        base_candidates spec versions = Ret (first :: others) /\
        Version_parse first = None).
Proof.
  assert (exists ms ws,
             sort_versions versions = ms ++ ws /\
             List.Forall (fun x => Version_parse x = None) ms /\
             List.Forall (fun x => Version_parse x <> None) ws) as Hsplit.
  { induction versions as [|v l IH].
    - exists [], []. split; [reflexivity|]. split; constructor.
    - destruct IH as (ms & ws & E & H1 & H2).
      cbn [sort_versions foldr]. fold (sort_versions l). rewrite E.
      now apply insert_desc_malformed_first. }
  split; [exact Hsplit|].
  intros spec He Hex. unfold base_candidates. rewrite He.
  destruct Hsplit as (ms & ws & E & H1 & H2). rewrite E.
  destruct ms as [|m ms].
  - exfalso. apply List.Exists_exists in Hex as (x & Hx & Hnone).
    apply (Permutation_in _ (Permutation_sym (sort_versions_perm versions)))
      in Hx.
    rewrite E in Hx. cbn [app] in Hx.
    rewrite List.Forall_forall in H2. now apply (H2 x Hx).
  - exists m, (ms ++ ws). split; [reflexivity|]. now inversion H1.
Qed.

End MalformedFirst.

Lemma sort_versions_stable_sort_witness :
  PackagingLaws release_only /\
  sort_versions (sort_versions ["1.0"; "2.0"; "1.0.0"])
  = sort_versions ["1.0"; "2.0"; "1.0.0"].
Proof.
  split; [exact release_only_laws|].
  apply (sort_versions_stable_sort release_only_laws).
Defined.

Lemma pick_min_satisfying_spec_witness :
  PackagingLaws release_only /\
  pick_min_satisfying (P := release_only)
    ["1.9"; "1.10"; "1.2"; "oops"] at_least_1_5 false = Some "1.9" /\
  (forall w,
      In w ["1.9"; "1.10"; "1.2"; "oops"] ->
      acceptable (P := release_only) at_least_1_5 w = true ->
      not_newer "1.9" w).
Proof.
  split; [exact release_only_laws|].
  assert (pick_min_satisfying (P := release_only)
            ["1.9"; "1.10"; "1.2"; "oops"] at_least_1_5 false = Some "1.9")
    as E by (vm_compute; reflexivity).
  split; [exact E|].
  destruct (pick_min_satisfying_spec release_only_laws
              ["1.9"; "1.10"; "1.2"; "oops"] at_least_1_5) as (Ha & _).
  exact (proj2 (proj2 (Ha false "1.9" eq_refl E))).
Defined.

(** ** The requirement map *)

Section RequirementMap.

Context {P : Packaging}.

Lemma set_keys {V} (d : OrderedDict.t V) (k : string) (v : V) (x : string) :
  In x (map fst (OrderedDict.set d k v)) -> x = k \/ In x (map fst d).
Proof.
  induction d as [|[k' v'] d IH]; cbn [OrderedDict.set map fst In].
  - intros [<-|[]]. now left.
  - destruct (String.eqb k' k); cbn [map fst In]; intros [H|H]; auto.
    destruct (IH H); auto.
Qed.

Lemma set_NoDup {V} (d : OrderedDict.t V) (k : string) (v : V) :
  List.NoDup (map fst d) -> List.NoDup (map fst (OrderedDict.set d k v)).
Proof.
  induction d as [|[k' v'] d IH]; cbn [OrderedDict.set map fst]; intros H.
  - constructor; [intros []|constructor].
  - inversion H as [|? ? Hk Hd]; subst.
    destruct (String.eqb_spec k' k) as [->|Hne]; cbn [map fst].
    + now constructor.
    + constructor; [|now apply IH].
      intros Hin. apply set_keys in Hin as [->|Hin]; [now apply Hne|].
      now apply Hk.
Qed.

Lemma parse_requirements_from_NoDup (lines : list string)
    (d m : OrderedDict.t string) :
  List.NoDup (map fst d) ->
  parse_requirements_from d lines = Ret m ->
  List.NoDup (map fst m).
Proof.
  revert d. induction lines as [|line lines IH]; intros d Hd H.
  - cbn in H. now injection H as <-.
  - destruct (line_entry line) as [[n s]|] eqn:E.
    + rewrite (parse_requirements_from_entry _ _ _ _ _ E) in H.
      eapply IH; [|exact H]. now apply set_NoDup.
    + destruct (parse_requirements_from_no_entry d d line lines E)
        as [[E1 _]|[E1 _]]; rewrite E1 in H; [|discriminate].
      eapply IH; eassumption.
Qed.

Lemma parse_requirements_from_malformed (lines : list string)
    (d : OrderedDict.t string) :
  existsb line_is_malformed lines = true ->
  parse_requirements_from d lines = Raise InvalidRequirement.
Proof.
  revert d. induction lines as [|line lines IH]; intros d H; [discriminate|].
  cbn [existsb] in H. cbn [parse_requirements_from]. cbv zeta.
  unfold line_is_malformed in H. cbv zeta in H.
  destruct (negb (PyStr.truthy (PyStr.strip line))
            || PyStr.startswith (PyStr.strip line) "#"); cbn [negb andb orb] in H;
    [now apply IH|].
  destruct (Requirement_parse (PyStr.strip line)) as [[rname rspec]|];
    cbn [orb] in H; [now apply IH|reflexivity].
Qed.

Lemma parse_requirements_from_wellformed (lines : list string)
    (d : OrderedDict.t string) :
  existsb line_is_malformed lines = false ->
  exists m, parse_requirements_from d lines = Ret m.
Proof.
  revert d. induction lines as [|line lines IH]; intros d H; [cbn; eauto|].
  cbn [existsb] in H. apply orb_false_iff in H as [Hl Hr].
  cbn [parse_requirements_from]. cbv zeta.
  unfold line_is_malformed in Hl. cbv zeta in Hl.
  destruct (negb (PyStr.truthy (PyStr.strip line))
            || PyStr.startswith (PyStr.strip line) "#"); cbn [negb andb] in Hl;
    [now apply IH|].
  destruct (Requirement_parse (PyStr.strip line)) as [[rname rspec]|];
    [now apply IH|discriminate].
Qed.

(** X14. [parse_requirements] rejects the whole file with
    [InvalidRequirement] as soon as one line that is neither blank nor a
    comment does not parse; otherwise it returns a map with one entry per
    normalised package name, holding the specifier of the last line that
    names the package (blank lines and comments contribute nothing). *)
Theorem parse_requirements_characterised (req_lines : list string) :
  (existsb line_is_malformed req_lines = true ->
   parse_requirements req_lines = Raise InvalidRequirement) /\
  (existsb line_is_malformed req_lines = false ->
   exists m,
     parse_requirements req_lines = Ret m /\
     List.NoDup (map fst m) /\
     forall name, OrderedDict.get m name = last_entry req_lines name).
Proof.
  split; [apply parse_requirements_from_malformed|].
  intros H. destruct (parse_requirements_from_wellformed _ [] H) as [m Hm].
  exists m. split; [exact Hm|]. split.
  - eapply parse_requirements_from_NoDup; [|exact Hm]. constructor.
  - intros name. rewrite (parse_requirements_from_last _ _ _ name Hm).
    now destruct (last_entry req_lines name).
Qed.

Lemma remove_key_set_other {V} (name k : string) (v : V) (d : OrderedDict.t V) :
  k <> name ->
  remove_key name (OrderedDict.set d k v) = OrderedDict.set (remove_key name d) k v.
Proof.
  intros Hk. assert (String.eqb k name = false) as Ek by now apply String.eqb_neq.
  induction d as [|[k' v'] d IH];
    cbn [OrderedDict.set remove_key List.filter fst].
  - now rewrite Ek.
  - destruct (String.eqb_spec k' k) as [->|Hne].
    + cbn [List.filter fst]. rewrite Ek. cbn [negb OrderedDict.set].
      now rewrite String.eqb_refl.
    + cbn [List.filter fst]. destruct (String.eqb k' name); cbn [negb].
      * exact IH.
      * cbn [OrderedDict.set]. apply String.eqb_neq in Hne. rewrite Hne.
        f_equal. exact IH.
Qed.

Lemma remove_key_set_same {V} (name : string) (v : V) (d : OrderedDict.t V) :
  remove_key name (OrderedDict.set d name v) = remove_key name d.
Proof.
  induction d as [|[k' v'] d IH];
    cbn [OrderedDict.set remove_key List.filter fst].
  - now rewrite String.eqb_refl.
  - destruct (String.eqb k' name) eqn:E; cbn [List.filter fst]; rewrite E;
      cbn [negb]; [reflexivity|]. f_equal. exact IH.
Qed.

Lemma parse_requirements_from_remove (name : string) (lines : list string)
    (d1 d2 : OrderedDict.t string) :
  remove_key name d1 = remove_key name d2 ->
  match parse_requirements_from d1 lines, parse_requirements_from d2 lines with
  | Ret m1, Ret m2 => remove_key name m1 = remove_key name m2
  | Raise e1, Raise e2 => e1 = e2
  | OutOfFuel, OutOfFuel => True
  | _, _ => False
  end.
Proof.
  revert d1 d2. induction lines as [|line lines IH]; intros d1 d2 Hd;
    [exact Hd|].
  destruct (line_entry line) as [[n s]|] eqn:E.
  - rewrite !(parse_requirements_from_entry _ _ _ _ _ E). apply IH.
    destruct (String.eqb_spec n name) as [->|Hne].
    + now rewrite !remove_key_set_same.
    + rewrite !remove_key_set_other by exact Hne. now rewrite Hd.
  - destruct (parse_requirements_from_no_entry d1 d2 line lines E)
      as [[-> ->]|[-> ->]]; [now apply IH|reflexivity].
Qed.

Lemma req_targets_remove (name : string) (current m : OrderedDict.t string) :
  OrderedDict.mem current name = false ->
  req_targets current (remove_key name m) = req_targets current m.
Proof.
  intros Hmem. unfold req_targets, remove_key.
  induction m as [|[k s] m IH]; [reflexivity|].
  cbn [List.filter fst]. destruct (String.eqb_spec k name) as [->|Hne];
    cbn [negb].
  - rewrite IH. cbn. now rewrite Hmem.
  - cbn. now rewrite IH.
Qed.

(** X17. A requirement line for a package that is not installed plays no
    part in the two install tasks: with or without the line, they end
    alike. *)
Theorem uninstalled_requirement_is_ignored (current : OrderedDict.t string)
    (pre post : list string) (a name : string) :
  names_package name a ->
  OrderedDict.mem current name = false ->
  (forall fuel kg new_pkg min_spec,
      task2_install_single_with_upgrade fuel kg current (pre ++ a :: post)
        new_pkg min_spec
      = task2_install_single_with_upgrade fuel kg current (pre ++ post)
          new_pkg min_spec) /\
  (forall fuel kg new_pkgs,
      task3_install_multi_with_upgrade fuel kg current (pre ++ a :: post) new_pkgs
      = task3_install_multi_with_upgrade fuel kg current (pre ++ post) new_pkgs).
Proof.
  intros [s Ha] Hmem.
  assert (match parse_requirements (pre ++ a :: post),
                parse_requirements (pre ++ post) with
          | Ret m1, Ret m2 => req_targets current m1 = req_targets current m2
          | Raise e1, Raise e2 => e1 = e2
          | OutOfFuel, OutOfFuel => True
          | _, _ => False
          end) as H.
  { unfold parse_requirements. rewrite !parse_requirements_from_app.
    destruct (parse_requirements_from [] pre) as [d| |]; cbn [bind]; auto.
    rewrite (parse_requirements_from_entry _ _ _ _ _ Ha).
    pose proof (parse_requirements_from_remove name post
                  (OrderedDict.set d name s) d (remove_key_set_same name s d))
      as Hr.
    destruct (parse_requirements_from (OrderedDict.set d name s) post),
             (parse_requirements_from d post); try contradiction; auto.
    rewrite <- (req_targets_remove name current a0),
            <- (req_targets_remove name current a1) by exact Hmem.
    now rewrite Hr. }
  split; intros; unfold task2_install_single_with_upgrade,
                        task3_install_multi_with_upgrade;
    destruct (parse_requirements (pre ++ a :: post)),
             (parse_requirements (pre ++ post));
    cbn [bind]; try contradiction; try congruence; now rewrite H.
Qed.

End RequirementMap.

Lemma parse_requirements_characterised_witness :
  existsb (line_is_malformed (P := release_only))
    ["numpy>=1.24"; "# pinned"; ""; " NumPy ==1.0 "] = false /\
  (exists m,
     parse_requirements ["numpy>=1.24"; "# pinned"; ""; " NumPy ==1.0 "] = Ret m /\
     OrderedDict.get m "numpy" = Some "==1.0") /\
  parse_requirements (P := release_only) ["numpy>=1.24"; "numpy=>1"]
  = Raise InvalidRequirement.
Proof.
  split; [reflexivity|].
  destruct (parse_requirements_characterised (P := release_only)
              ["numpy>=1.24"; "# pinned"; ""; " NumPy ==1.0 "]) as [_ T].
  destruct (T eq_refl) as (m & Hm & _ & Hg).
  split.
  - exists m. split; [exact Hm|]. rewrite Hg. reflexivity.
  - apply (proj1 (parse_requirements_characterised (P := release_only)
                    ["numpy>=1.24"; "numpy=>1"])).
    reflexivity.
Defined.

Lemma uninstalled_requirement_is_ignored_witness :
  names_package "requests" "requests>=2.0" /\
  OrderedDict.mem [("numpy", "1.20.0")] "requests" = false /\
  task2_install_single_with_upgrade 8 demo_kg [("numpy", "1.20.0")]
    ["numpy>=1.24"; "requests>=2.0"] "pandas" ""
  = task2_install_single_with_upgrade 8 demo_kg [("numpy", "1.20.0")]
      ["numpy>=1.24"] "pandas" "".
Proof.
  assert (names_package "requests" "requests>=2.0") as H1
    by (eexists; vm_compute; reflexivity).
  split; [exact H1|]. split; [reflexivity|].
  destruct (uninstalled_requirement_is_ignored [("numpy", "1.20.0")]
              ["numpy>=1.24"] [] "requests>=2.0" "requests" H1 eq_refl)
    as [T2 _].
  apply T2.
Defined.

(** ** The installed-version check of the first task *)

Section InstalledCheck.

Context {P : Packaging}.

Lemma get_app {V} (d1 d2 : OrderedDict.t V) (k : string) :
  OrderedDict.get (d1 ++ d2) k
  = match OrderedDict.get d1 k with
    | Some v => Some v
    | None => OrderedDict.get d2 k
    end.
Proof.
  induction d1 as [|[k' v'] d1 IH]; cbn [app OrderedDict.get]; [reflexivity|].
  now destruct (String.eqb k' k).
Qed.

Lemma get_setdefault_ne {V} (d : OrderedDict.t V) (k0 k : string) (x : V) :
  k0 <> k ->
  OrderedDict.get (OrderedDict.setdefault d k0 x) k = OrderedDict.get d k.
Proof.
  intros Hne. unfold OrderedDict.setdefault.
  destruct (OrderedDict.mem d k0); [reflexivity|].
  rewrite get_app. cbn [OrderedDict.get].
  apply String.eqb_neq in Hne. rewrite Hne.
  now destruct (OrderedDict.get d k).
Qed.

Lemma installed_items_setdefault (merged : OrderedDict.t (option string))
    (k : string) :
  installed_items (OrderedDict.setdefault merged k None) = installed_items merged.
Proof.
  unfold OrderedDict.setdefault. destruct (OrderedDict.mem merged k);
    [reflexivity|].
  unfold installed_items. rewrite omap_app. cbn. now rewrite app_nil_r.
Qed.

Lemma get_merged (current : OrderedDict.t string) (k : string) :
  OrderedDict.get (map (fun '(k, v) => (k, Some v)) current) k
  = option_map Some (OrderedDict.get current k).
Proof.
  induction current as [|[k' v'] current IH]; cbn [map OrderedDict.get];
    [reflexivity|].
  now destruct (String.eqb k' k).
Qed.

Lemma installed_items_merged (current : OrderedDict.t string) :
  installed_items (map (fun '(k, v) => (k, Some v)) current)
  = with_version current.
Proof.
  unfold installed_items, with_version.
  induction current as [|[k v] current IH]; [reflexivity|].
  cbn [map List.filter snd]. cbn [omap list_omap].
  fold (@omap list _ _ _
          (fun '(k, v) => match v : option string with
                          | Some s => if PyStr.truthy s then Some (k, s) else None
                          | None => None
                          end)
          (map (fun '(k, v) => (k, Some v)) current)).
  rewrite IH. now destruct (PyStr.truthy v).
Qed.

Lemma check_installed_accepts (current : OrderedDict.t string)
    (pre rest : list (string * string)) (merged : OrderedDict.t (option string)) :
  List.NoDup (map fst (pre ++ rest)) ->
  (forall k, In k (map fst (pre ++ rest)) ->
     OrderedDict.get merged k = option_map Some (OrderedDict.get current k)) ->
  installed_items merged = with_version current ->
  (forall k s, In (k, s) pre -> requirement_met current k s) ->
  exists merged',
    check_installed merged (pre ++ rest) = check_installed merged' rest /\
    (forall k, In k (map fst rest) ->
       OrderedDict.get merged' k = option_map Some (OrderedDict.get current k)) /\
    installed_items merged' = with_version current.
Proof.
  revert merged. induction pre as [|[k s] pre IH]; intros merged Hnd Hget Hin Hok.
  - exists merged. auto.
  - cbn [app map fst] in Hnd, Hget. inversion Hnd as [|? ? Hk Hnd']; subst.
    destruct (IH (OrderedDict.setdefault merged k None)) as (merged' & E & G & I).
    + exact Hnd'.
    + intros k' Hk'. rewrite get_setdefault_ne; [apply Hget; now right|].
      intros ->. now apply Hk.
    + now rewrite installed_items_setdefault.
    + intros k' s' H'. apply Hok. now right.
    + exists merged'. split; [|now split].
      rewrite <- E. cbn [app check_installed]. cbv zeta.
      destruct (PyStr.truthy s) eqn:Es; [|reflexivity].
      rewrite (Hget k (or_introl eq_refl)).
      destruct (OrderedDict.get current k) as [v|] eqn:Ev; cbn [option_map];
        [|reflexivity].
      destruct (Hok k s (or_introl eq_refl) Es v Ev) as (spec & -> & ->).
      reflexivity.
Qed.

(** X15. The first task looks at the requirement file before it asks the
    knowledge graph anything: at the first entry of the requirement map
    whose package is installed (under exactly that name) at a version the
    entry's specifier rejects, it returns a failure with an empty plan and
    one message naming the package, the installed version and the
    specifier, whatever the graph, the new package and its specifier. *)
Theorem task1_rejects_installed_version (current : OrderedDict.t string)
    (req_lines : list string) (pre post : list (string * string))
    (k s v : string) (spec : SpecifierSet) :
  parse_requirements req_lines = Ret (pre ++ (k, s) :: post) ->
  (forall k' s', In (k', s') pre -> requirement_met current k' s') ->
  PyStr.truthy s = true ->
  OrderedDict.get current k = Some v ->
  SpecifierSet_parse s = Some spec ->
  contains spec v = Ret false ->
  forall fuel kg new_pkg new_spec,
    task1_check_single fuel kg current req_lines new_pkg new_spec
    = Ret (mkResult false ∅ [msg_installed k v s]).
Proof.
  intros Hp Hpre Hs Hv Hspec Hc fuel kg new_pkg new_spec.
  unfold task1_check_single. rewrite Hp. cbn [bind]. cbv zeta.
  destruct (check_installed_accepts current pre ((k, s) :: post)
              (map (fun '(k, v) => (k, Some v)) current))
    as (merged' & E & G & _).
  - eapply parse_requirements_from_NoDup; [|exact Hp]. constructor.
  - intros k' _. apply get_merged.
  - apply installed_items_merged.
  - exact Hpre.
  - rewrite E. cbn [check_installed]. cbv zeta. rewrite Hs.
    rewrite (G k (or_introl eq_refl)), Hv. cbn [option_map].
    rewrite Hspec, Hc. reflexivity.
Qed.

(** X16. When every entry of the requirement map is met by the installed
    version of its package (or names a package that is not installed, or
    has no specifier), the first task is [resolve_plan] on the installed
    packages with a non-empty version and the new package as the only
    target: the requirement file adds neither packages nor targets. *)
Theorem task1_resolves_environment (current : OrderedDict.t string)
    (req_lines : list string) (req_map : OrderedDict.t string) :
  parse_requirements req_lines = Ret req_map ->
  (forall k s, In (k, s) req_map -> requirement_met current k s) ->
  forall fuel kg new_pkg new_spec,
    task1_check_single fuel kg current req_lines new_pkg new_spec
    = resolve_plan fuel kg (with_version current) [(new_pkg, new_spec, "target")].
Proof.
  intros Hp Hall fuel kg new_pkg new_spec.
  unfold task1_check_single. rewrite Hp. cbn [bind]. cbv zeta.
  destruct (check_installed_accepts current req_map []
              (map (fun '(k, v) => (k, Some v)) current))
    as (merged' & E & _ & I).
  - rewrite app_nil_r. eapply parse_requirements_from_NoDup; [|exact Hp].
    constructor.
  - intros k' _. apply get_merged.
  - apply installed_items_merged.
  - exact Hall.
  - rewrite app_nil_r in E. rewrite E. cbn [check_installed bind].
    now rewrite I.
Qed.

End InstalledCheck.

Lemma task1_rejects_installed_version_witness :
  task1_check_single (P := release_only) 0 demo_kg [("numpy", "1.20.0")]
    ["requests>=2.0"; "numpy>=1.24"] "pandas" ""
  = Ret (mkResult false ∅ [msg_installed "numpy" "1.20.0" ">=1.24"]).
Proof.
  apply (task1_rejects_installed_version (P := release_only)
           [("numpy", "1.20.0")] ["requests>=2.0"; "numpy>=1.24"]
           [("requests", ">=2.0")] [] "numpy" ">=1.24" "1.20.0"
           [ReleaseOnly.mkClause ReleaseOnly.Ge "1.24" [1%N; 24%N]]).
  - vm_compute. reflexivity.
  - intros k' s' [E|[]]. injection E as <- <-. intros _ v Hv.
    vm_compute in Hv. discriminate Hv.
  - reflexivity.
  - reflexivity.
  - vm_compute. reflexivity.
  - vm_compute. reflexivity.
Defined.

Lemma task1_resolves_environment_witness :
  task1_check_single (P := release_only) 8 demo_kg
    [("numpy", "1.20.0"); ("broken", "")]
    ["requests>=2.0"; "numpy>=1.20"] "pandas" ""
  = resolve_plan 8 demo_kg [("numpy", "1.20.0")] [("pandas", "", "target")].
Proof.
  apply (task1_resolves_environment (P := release_only)
           [("numpy", "1.20.0"); ("broken", "")]
           ["requests>=2.0"; "numpy>=1.20"]
           [("requests", ">=2.0"); ("numpy", ">=1.20")]).
  - vm_compute. reflexivity.
  - intros k s [E|[E|[]]]; injection E as <- <-; intros _ v Hv;
      vm_compute in Hv; [discriminate Hv|].
    injection Hv as <-. eexists. split; vm_compute; reflexivity.
Defined.

(** ** Normal forms of package names *)

Lemma lstrip_map_chars (f : ascii -> ascii) (s : string) :
  (forall c, PyStr.is_space (f c) = PyStr.is_space c) ->
  PyStr.lstrip (PyStr.map_chars f s) = PyStr.map_chars f (PyStr.lstrip s).
Proof.
  intros Hf. induction s as [|c s IH]; cbn [PyStr.map_chars PyStr.lstrip];
    [reflexivity|].
  rewrite Hf. now destruct (PyStr.is_space c).
Qed.

Lemma rstrip_map_chars (f : ascii -> ascii) (s : string) :
  (forall c, PyStr.is_space (f c) = PyStr.is_space c) ->
  PyStr.rstrip (PyStr.map_chars f s) = PyStr.map_chars f (PyStr.rstrip s).
Proof.
  intros Hf. induction s as [|c s IH]; cbn [PyStr.map_chars PyStr.rstrip];
    [reflexivity|].
  rewrite IH, Hf. destruct (PyStr.rstrip s); cbn [PyStr.map_chars];
    [now destruct (PyStr.is_space c)|reflexivity].
Qed.

Lemma rstrip_idempotent (s : string) :
  PyStr.rstrip (PyStr.rstrip s) = PyStr.rstrip s.
Proof.
  induction s as [|c s IH]; cbn [PyStr.rstrip]; [reflexivity|].
  destruct (PyStr.rstrip s) as [|d r] eqn:E.
  - destruct (PyStr.is_space c) eqn:Ec; cbn [PyStr.rstrip]; [reflexivity|].
    now rewrite Ec.
  - cbn [PyStr.rstrip] in IH |- *. now rewrite IH.
Qed.

Lemma lstrip_rstrip_lstrip (s : string) :
  PyStr.lstrip (PyStr.rstrip (PyStr.lstrip s)) = PyStr.rstrip (PyStr.lstrip s).
Proof.
  induction s as [|c s IH]; [reflexivity|]. cbn [PyStr.lstrip].
  destruct (PyStr.is_space c) eqn:Ec; [exact IH|].
  cbn [PyStr.rstrip]. destruct (PyStr.rstrip s); rewrite ?Ec;
    cbn [PyStr.lstrip]; now rewrite Ec.
Qed.

Lemma strip_idempotent (s : string) :
  PyStr.strip (PyStr.strip s) = PyStr.strip s.
Proof.
  unfold PyStr.strip. now rewrite lstrip_rstrip_lstrip, rstrip_idempotent.
Qed.

Lemma strip_map_chars (f : ascii -> ascii) (s : string) :
  (forall c, PyStr.is_space (f c) = PyStr.is_space c) ->
  PyStr.strip (PyStr.map_chars f s) = PyStr.map_chars f (PyStr.strip s).
Proof.
  intros Hf. unfold PyStr.strip.
  now rewrite lstrip_map_chars, rstrip_map_chars.
Qed.

Lemma normalize_char_idempotent (c : ascii) :
  normalize_char (normalize_char c) = normalize_char c.
Proof. destruct c as [[] [] [] [] [] [] [] []]; reflexivity. Qed.

Lemma normalize_name_map (name : string) :
  normalize_name name = PyStr.map_chars normalize_char (PyStr.strip name).
Proof.
  unfold normalize_name, PyStr.replace_char, PyStr.lower.
  rewrite map_chars_compose. reflexivity.
Qed.

Lemma map_chars_pointwise (f g : ascii -> ascii) (s : string) :
  (forall c, f c = g c) -> PyStr.map_chars f s = PyStr.map_chars g s.
Proof.
  intros H. induction s as [|c s IH]; cbn [PyStr.map_chars]; [reflexivity|].
  now rewrite H, IH.
Qed.

Lemma normalize_name_twice (name : string) :
  normalize_name (normalize_name name) = normalize_name name.
Proof.
  rewrite !normalize_name_map.
  rewrite strip_map_chars by exact normalize_char_space.
  rewrite strip_idempotent, map_chars_compose.
  apply map_chars_pointwise, normalize_char_idempotent.
Qed.






(** ** The starting plan and the bounds *)

Section Start.

Context {P : Packaging}.

Lemma find_snoc {A} (f : A -> bool) (l : list A) (x : A) :
  List.find f (l ++ [x])
  = match List.find f l with
    | Some y => Some y
    | None => if f x then Some x else None
    end.
Proof.
  induction l as [|y l IH]; cbn [app List.find]; [reflexivity|].
  now destruct (f y).
Qed.

Lemma initial_plan_lookup_from (current : OrderedDict.t string)
    (m : gmap string PackageSelection) (n : string) :
  fold_left
    (fun m '(k, v) =>
       <[normalize_name k := mkSelection (normalize_name k) v Existing]> m)
    current m !! n
  = match environment_item current n with
    | Some kv => Some (mkSelection n kv.2 Existing)
    | None => m !! n
    end.
Proof.
  unfold environment_item. revert m.
  induction current as [|[k v] current IH]; intros m; [reflexivity|].
  cbn [fold_left rev]. rewrite IH, find_snoc.
  destruct (List.find _ (rev current)); [reflexivity|].
  cbn [fst snd]. destruct (String.eqb_spec (normalize_name k) n) as [<-|Hne].
  - now rewrite lookup_insert_eq.
  - now rewrite lookup_insert_ne.
Qed.

(** X19. The plan [resolve_plan] starts from is keyed by normalised name:
    under a name it holds the version of the last item of the environment
    whose key normalises to that name, marked as existing, and nothing
    under a name that no key normalises to.  Two keys of the environment
    that differ only in case, underscores or surrounding blanks thus
    share one entry, and the earlier version is forgotten. *)
Theorem initial_plan_lookup (current : OrderedDict.t string) (n : string) :
  initial_plan current !! n
  = (fun kv : string * string => mkSelection n kv.2 Existing)
      <$> environment_item current n.
Proof.
  unfold initial_plan. rewrite initial_plan_lookup_from.
  destruct (environment_item current n); [reflexivity|apply lookup_empty].
Qed.

(** X20. The bounds of [resolve_plan], for targets whose specifiers
    parse.  An environment of more than [MAX_PACKAGES] names makes it fail
    at once, whatever the graph and the targets; within that bound, no
    target at all is a success that leaves the environment as it is, and
    more than [MAX_QUEUE] targets are a failure before the graph is
    asked. *)
Theorem resolve_plan_limits (fuel : nat) (kg : KGClient)
    (current : OrderedDict.t string)
    (targets : list (string * string * string)) (queue : list Target) :
  initial_queue targets = Ret queue ->
  (MAX_PACKAGES < size (initial_plan current) ->
   resolve_plan (S fuel) kg current targets
   = Ret (mkResult false (initial_plan current) [msg_too_many_packages])) /\
  (size (initial_plan current) <= MAX_PACKAGES -> targets = [] ->
   resolve_plan (S fuel) kg current targets
   = Ret (mkResult true (initial_plan current) [])) /\
  (size (initial_plan current) <= MAX_PACKAGES -> MAX_QUEUE < length targets ->
   resolve_plan (S fuel) kg current targets
   = Ret (mkResult false (initial_plan current) [msg_queue_too_long])).
Proof.
  intros Hq. unfold resolve_plan. cbv zeta. rewrite Hq. cbn [bind].
  rewrite dfs_unfold. split; [|split].
  - intros H. apply Nat.ltb_lt in H. now rewrite H.
  - intros H ->. apply Nat.ltb_ge in H. rewrite H.
    cbn [initial_queue] in Hq. injection Hq as <-. reflexivity.
  - intros H Hlen. apply Nat.ltb_ge in H. rewrite H.
    assert (length queue = length targets) as El.
    { rewrite <- (length_map (fun t : Target => t.1.1) queue),
              (initial_queue_names _ _ Hq).
      apply length_map. }
    destruct queue as [|[[name spec] tag] rest];
      [cbn in El; rewrite <- El in Hlen; inversion Hlen|].
    rewrite <- El in Hlen. apply Nat.ltb_lt in Hlen. now rewrite Hlen.
Qed.

End Start.

Lemma resolve_plan_limits_witness :
  initial_queue (P := release_only) (repeat ("numpy", "", "target") 2001)
  = Ret (repeat (("numpy", [], "target") : Target) 2001) /\
  resolve_plan 1 demo_kg [] (repeat ("numpy", "", "target") 2001)
  = Ret (mkResult false (initial_plan []) [msg_queue_too_long]).
Proof.
  assert (initial_queue (P := release_only) (repeat ("numpy", "", "target") 2001)
          = Ret (repeat (("numpy", [], "target") : Target) 2001)) as Hq
    by (vm_compute; reflexivity).
  split; [exact Hq|].
  destruct (resolve_plan_limits 0 demo_kg [] _ _ Hq) as (_ & _ & T).
  apply T.
  - apply Nat.leb_le. vm_compute. reflexivity.
  - rewrite repeat_length. unfold MAX_QUEUE. lia.
Defined.

(** ** Well-formed data *)

Section WellFormed.

Context {P : Packaging}.














End WellFormed.


(** ** The planning endpoint *)

Section Endpoint.

Context {P : Packaging}.

Lemma or_empty_twice (x : option string) :
  or_empty (Some (or_empty x)) = or_empty x.
Proof.
  destruct x as [s|]; [|reflexivity]. cbn [or_empty].
  destruct (PyStr.truthy s) eqn:E; [now rewrite E|reflexivity].
Qed.

Lemma initial_queue_plan_targets (targets : list PlanTarget) :
  initial_queue
    (map (fun '(name, spec) => (name, spec, "target")) (plan_targets targets))
  = initial_queue (named_targets targets).
Proof.
  induction targets as [|t targets IH]; [reflexivity|].
  cbn [plan_targets named_targets map initial_queue] in *.
  rewrite or_empty_twice, normalize_name_twice.
  unfold plan_targets, named_targets in IH. now rewrite IH.
Qed.

Lemma fold_insert_commute (d : OrderedDict.t string) (k' : string)
    (x : PackageSelection) (m : gmap string PackageSelection) :
  (forall k v, In (k, v) d -> normalize_name k <> k') ->
  fold_left
    (fun m '(k, v) =>
       <[normalize_name k := mkSelection (normalize_name k) v Existing]> m)
    d (<[k' := x]> m)
  = <[k' := x]>
      (fold_left
         (fun m '(k, v) =>
            <[normalize_name k := mkSelection (normalize_name k) v Existing]> m)
         d m).
Proof.
  revert m. induction d as [|[k v] d IH]; intros m H; [reflexivity|].
  cbn [fold_left]. rewrite <- IH by (intros k0 v0 H0; eapply H; right; exact H0).
  f_equal. apply insert_insert_ne. eapply H. now left.
Qed.

Lemma fold_set (d : OrderedDict.t string) (k' v : string)
    (m : gmap string PackageSelection) :
  List.NoDup (map fst d) ->
  (forall k, In k (map fst d) -> normalize_name k = k) ->
  normalize_name k' = k' ->
  fold_left
    (fun m '(k, v) =>
       <[normalize_name k := mkSelection (normalize_name k) v Existing]> m)
    (OrderedDict.set d k' v) m
  = <[k' := mkSelection k' v Existing]>
      (fold_left
         (fun m '(k, v) =>
            <[normalize_name k := mkSelection (normalize_name k) v Existing]> m)
         d m).
Proof.
  intros Hnd Hn Hk'. revert m.
  induction d as [|[k0 v0] d IH]; intros m; cbn [OrderedDict.set].
  - cbn [fold_left]. now rewrite Hk'.
  - cbn [map fst] in Hnd, Hn. inversion Hnd as [|? ? Hk0 Hnd']; subst.
    assert (forall k v1, In (k, v1) d -> In k (map fst d)) as Hkeys
      by (intros k v1 H1; apply (in_map fst) in H1; exact H1).
    destruct (String.eqb_spec k0 k') as [->|Hne].
    + cbn [fold_left]. rewrite Hk'.
      assert (forall k v1, In (k, v1) d -> normalize_name k <> k') as Hd.
      { intros k v1 H1 E. rewrite (Hn k) in E by (right; eapply Hkeys, H1).
        subst k. eapply Hk0, Hkeys, H1. }
      rewrite !fold_insert_commute by exact Hd.
      now rewrite insert_insert_eq.
    + cbn [fold_left]. apply IH; [exact Hnd'|].
      intros k Hk. apply Hn. now right.
Qed.

Lemma plan_current_fold (env : list PackageInput) (d : OrderedDict.t string) :
  List.NoDup (map fst d) ->
  (forall k, In k (map fst d) -> normalize_name k = k) ->
  initial_plan
    (fold_left
       (fun d p =>
          match pi_version p with
          | Some v =>
              if PyStr.truthy v
              then OrderedDict.set d (normalize_name (pi_name p)) v
              else d
          | None => d
          end)
       env d)
  = fold_left
      (fun m '(k, v) =>
         <[normalize_name k := mkSelection (normalize_name k) v Existing]> m)
      (installed_inputs env) (initial_plan d).
Proof.
  revert d. induction env as [|p env IH]; intros d Hnd Hn; [reflexivity|].
  cbn [fold_left]. unfold installed_inputs.
  change (omap input_item (p :: env))
    with (match input_item p with
          | Some y => y :: installed_inputs env
          | None => installed_inputs env
          end).
  unfold input_item at 1.
  destruct (pi_version p) as [v|]; [|now apply IH].
  destruct (PyStr.truthy v); [|now apply IH].
  rewrite IH.
  - cbn [fold_left]. f_equal. unfold initial_plan.
    apply fold_set; [exact Hnd|exact Hn|apply normalize_name_twice].
  - now apply set_NoDup.
  - intros k Hk. apply set_keys in Hk as [->|Hk];
      [apply normalize_name_twice|now apply Hn].
Qed.

(** X21. The [/plan] endpoint answers with the result of [resolve_plan]
    on the posted packages that have a version and on the posted targets,
    all tagged as targets: normalising the names before the call changes
    nothing, since [resolve_plan] normalises them again; a package posted
    without a version is not part of the environment; and the plan of the
    answer is empty when the resolution fails. *)
Theorem plan_endpoint_is_resolve_plan (fuel : nat) (kg : KGClient)
    (env : list PackageInput) (targets : list PlanTarget) :
  plan_endpoint fuel kg env targets
  = let* res := resolve_plan fuel kg (installed_inputs env) (named_targets targets) in
    Ret (plan_response res).
Proof.
  unfold plan_endpoint, task3_install_multi_with_upgrade. cbv zeta.
  change (parse_requirements []) with (Ret ([] : OrderedDict.t string)).
  cbn [bind]. change (req_targets (plan_current env) []) with
    ([] : list (string * string * string)).
  rewrite app_nil_r. unfold resolve_plan. cbv zeta.
  rewrite initial_queue_plan_targets.
  unfold plan_current. rewrite plan_current_fold;
    [|constructor|intros k []].
  reflexivity.
Qed.

End Endpoint.
